(** * State history plugin: a shallow embedding and its properties

    The development follows [plugins/state_history_plugin/state_history_plugin.cpp].
    Integers of the program are [Z] with their wrap-around written out,
    byte vectors are [list byte], the transaction trace buffer
    ([std::map]) is a [gmap], and code that can throw or run into undefined
    behaviour returns an [outcome] (no plugin state involved) or a [result]
    (plugin state threaded through, kept at the point an exception leaves). *)

From Stdlib Require Import ZArith NArith Lia List Bool String.
From Stdlib.Strings Require Import Byte Ascii.
From stdpp Require Import base option list gmap.
Import ListNotations.

#[local] Open Scope Z_scope.

Abbreviation bytes := (list byte).

(** ** Native integers and byte streams *)

Module Wire.

(** [(uint32_t)x] for a 64-bit [size_t] value [x]. *)
Definition to_uint32 (x : Z) : Z := x mod 2 ^ 32.

Definition byte_of_Z (z : Z) : byte :=
  match Byte.of_N (Z.to_N (z mod 256)) with
  | Some b => b
  | None => x00
  end.

Definition Z_of_byte (b : byte) : Z := Z.of_N (Byte.to_N b).

(** The object representation of a [uint32_t], least significant byte
    first: what [stream.write] emits for the four bytes of [s]. *)
Definition le32 (s : Z) : bytes :=
  [byte_of_Z s; byte_of_Z (Z.shiftr s 8); byte_of_Z (Z.shiftr s 16); byte_of_Z (Z.shiftr s 24)].

(** The value of an object whose representation is the given bytes. *)
Fixpoint of_le (bs : bytes) : Z :=
  match bs with
  | [] => 0
  | b :: bs' => Z_of_byte b + 256 * of_le bs'
  end.

(** [stream.read(buf, n)]: the [n] bytes of [buf] are overwritten with as
    many bytes as the stream still has; on a short read the tail of [buf]
    keeps its previous content and the stream is exhausted. *)
Definition stream_read (n : nat) (buf : bytes) (stream : bytes) : bytes * bytes :=
  let got := firstn n stream in
  (got ++ skipn (length got) (firstn n buf), skipn n stream).

End Wire.

(** ** Exceptions and undefined behaviour *)

Inductive exn : Type :=
| plugin_exception (what : string)
| std_out_of_range.

(** What a piece of code that does not touch the plugin's state does:
    return, throw, or run into undefined behaviour (a null pointer
    dereference, [back()] of an empty container). *)
Inductive outcome (A : Type) : Type :=
| Ok (a : A)
| Throw (e : exn)
| Undefined.

Arguments Ok {A} a.
Arguments Throw {A} e.
Arguments Undefined {A}.

Definition obind {A B : Type} (m : outcome A) (k : A -> outcome B) : outcome B :=
  match m with
  | Ok a => k a
  | Throw e => Throw e
  | Undefined => Undefined
  end.

Notation "'do' x <- m ; k" := (obind m (fun x => k))
  (at level 10, x name, m at level 99, k at level 200).

(** [for (auto& x : xs) acc = f(acc, x)] for a loop body that may throw. *)
Fixpoint ofold {A B : Type} (f : B -> A -> outcome B) (acc : B) (xs : list A) : outcome B :=
  match xs with
  | [] => Ok acc
  | x :: xs' => do acc' <- f acc x; ofold f acc' xs'
  end.

(** ** Data model *)

Abbreviation block_id_type := N (only parsing).
Abbreviation transaction_id_type := N (only parsing).

(** Modelled from the spec: [history_log_header] is declared in
    [history_log.hpp], which is not among the sources.  The fields are the
    ones the designated initialisers of [store_traces] and
    [store_chain_state] set. *)
Record history_log_header : Type := {
  block_num : Z;
  block_id : block_id_type;
  payload_size : Z
}.

Record signed_block : Type := {
  sb_block_num : Z;
  sb_id : block_id_type;
  previous : block_id_type;
  sb_content : bytes
}.

(** [block_state]: the block and the ids of its transactions, in block
    order ([p->id] for each [p] of [trxs]). *)
Record block_state : Type := {
  block : signed_block;
  trxs : list transaction_id_type
}.

Record transaction_trace : Type := {
  id : transaction_id_type;
  receipt : option bytes;
  trace_content : bytes
}.

(** A row of a chainbase index: its object id, the table id it is scoped to
    (meaningful for the contract tables only) and its other fields. *)
Record chain_row : Type := {
  row_id : Z;
  t_id : Z;
  row_content : bytes
}.

(** chainbase's [undo_state], each container in its iteration order. *)
Record undo_state : Type := {
  old_values : list (Z * chain_row);
  removed_values : list (Z * chain_row);
  new_ids : list Z
}.

Record chainbase_index : Type := {
  indices : list chain_row;
  stack : list undo_state
}.

(** The tables [store_chain_state] walks, in the order of its calls. *)
Inductive table : Type :=
| account | contract_table | contract_row | contract_index64
| contract_index128 | contract_index256 | contract_index_double
| contract_index_long_double | global_property | generated_transaction
| permission | permission_link | resource_limits | resource_usage
| resource_limits_state | resource_limits_config.

Definition table_tag (t : table) : string :=
  match t with
  | account => "account"
  | contract_table => "contract_table"
  | contract_row => "contract_row"
  | contract_index64 => "contract_index64"
  | contract_index128 => "contract_index128"
  | contract_index256 => "contract_index256"
  | contract_index_double => "contract_index_double"
  | contract_index_long_double => "contract_index_long_double"
  | global_property => "global_property"
  | generated_transaction => "generated_transaction"
  | permission => "permission"
  | permission_link => "permission_link"
  | resource_limits => "resource_limits"
  | resource_usage => "resource_usage"
  | resource_limits_state => "resource_limits_state"
  | resource_limits_config => "resource_limits_config"
  end%string.

(** Modelled from the spec: [table_delta] is declared in
    [state_history_plugin.hpp], which is not among the sources; its rows
    are the spec's ordered sequence of [{present: bool, data: bytes}]. *)
Record table_delta : Type := {
  name : string;
  rows : list (bool * bytes)
}.

Inductive state_request : Type :=
| get_status_request_v0
| get_block_request_v0 (req_block_num : Z).

Record get_status_result_v0 : Type := {
  status_last_irreversible_block_num : Z;
  status_last_irreversible_block_id : block_id_type;
  state_begin_block_num : Z;
  state_end_block_num : Z
}.

Record get_block_result_v0 : Type := {
  result_block_num : Z;
  result_block : option bytes;
  result_block_state : option bytes;
  result_traces : option bytes;
  result_deltas : option bytes
}.

Inductive state_result : Type :=
| status_result (r : get_status_result_v0)
| block_result (r : get_block_result_v0).

(** The chain controller as the plugin reads it. [fetch_block_by_number]
    yields a null pointer ([None]) for a block the store does not hold. *)
Record controller : Type := {
  db : table -> chainbase_index;
  fetch_block_by_number : Z -> option signed_block;
  last_irreversible_block_num : Z;
  last_irreversible_block_id : block_id_type
}.

(** The serialisation of chain entities ([fc::raw::pack] and the history
    wrappers) is outside the plugin; the plugin only moves the bytes. *)
Class Serialization : Type := {
  pack_header : history_log_header -> bytes;
  pack_signed_block : signed_block -> bytes;
  pack_traces : list transaction_trace -> bytes;
  pack_deltas : list table_delta -> bytes;
  pack_serial_row : table -> chain_row -> bytes;
  pack_table_row : table -> chain_row -> chain_row -> bytes;
  pack_state_result : state_result -> bytes;
  state_history_plugin_abi : bytes
}.

(** ** The history log *)

Module HistoryLog.
Section Log.
Context {ser : Serialization}.

(** Modelled from the spec: one entry of the data file, the header and
    the [payload_size] bytes that follow it. *)
Record log_entry : Type := {
  entry_header : history_log_header;
  entry_payload : bytes
}.

(** Modelled from the spec: the class [history_log] of [history_log.hpp]
    is not among the sources.  The log is the block number of its first
    entry and its entries in index order; index record [k] describes
    block [begin_block + k], and the data file is the concatenation of
    the entries, each a header followed by its payload. *)
Record history_log : Type := {
  first_block : Z;
  entries : list log_entry
}.

(** Modelled from the spec: the state of a log whose files are empty,
    [begin_block == end_block == 0]. *)
Definition empty_log : history_log := {| first_block := 0; entries := [] |}.

(** Modelled from the spec: [history_log::begin_block]. *)
Definition begin_block (log : history_log) : Z := first_block log.

(** Modelled from the spec: [history_log::end_block],
    [begin_block + record_count]. *)
Definition end_block (log : history_log) : Z :=
  first_block log + Z.of_nat (length (entries log)).

(** Modelled from the spec: the bytes of an entry in the data file. *)
Definition entry_bytes (e : log_entry) : bytes :=
  pack_header (entry_header e) ++ entry_payload e.

(** Modelled from the spec: [history_log::get_entry], which requires
    [begin_block <= n < end_block] and returns the stored header with a
    read cursor placed just after it: the entry's payload, followed by
    whatever the data file holds after that entry. *)
Definition get_entry (log : history_log) (n : Z) : outcome (history_log_header * bytes) :=
  if (n <? begin_block log) || (end_block log <=? n) then
    Throw (plugin_exception "read outside of the log")
  else
    match drop (Z.to_nat (n - begin_block log)) (entries log) with
    | e :: later => Ok (entry_header e, entry_payload e ++ flat_map entry_bytes later)
    | [] => Throw (plugin_exception "read outside of the log")
    end.

(** Modelled from the spec: the walk of [write_entry] on a fork, "walk N
    downward until either N == begin_block or the stored block N-1 has
    block_id == previous_id"; [k] is [N - begin_block]. *)
Fixpoint fork_point (es : list log_entry) (prev : block_id_type) (k : nat) : nat :=
  match k with
  | O => O
  | S k' =>
      match nth_error es k' with
      | Some e => if (block_id (entry_header e) =? prev)%N then k else fork_point es prev k'
      | None => fork_point es prev k'
      end
  end.

(** Modelled from the spec: [history_log::write_entry].  [payload] is what
    the caller's payload writer streams.  An empty log starts at the
    header's block; a block past [end_block] is a gap and a block before
    [begin_block] an underflow; otherwise the log is cut back to the fork
    point (a log cut back to nothing is reset to the empty state) and the
    entry is appended. *)
Definition write_entry (log : history_log) (header : history_log_header)
    (prev_id : block_id_type) (payload : bytes) : outcome history_log :=
  let e := {| entry_header := header; entry_payload := payload |} in
  if begin_block log =? end_block log then
    Ok {| first_block := block_num header; entries := [e] |}
  else if end_block log <? block_num header then
    Throw (plugin_exception "gap")
  else if block_num header <? begin_block log then
    Throw (plugin_exception "underflow")
  else
    match fork_point (entries log) prev_id (Z.to_nat (block_num header - begin_block log)) with
    | O => Ok {| first_block := block_num header; entries := [e] |}
    | S k => Ok {| first_block := first_block log; entries := take (S k) (entries log) ++ [e] |}
    end.

End Log.
End HistoryLog.
Export HistoryLog.

(** ** The plugin *)

Record state_history_plugin_impl : Type := {
  block_state_log : history_log;
  trace_log : history_log;
  chain_state_log : history_log;
  traces : gmap N transaction_trace
}.

Definition set_trace_log (log : history_log) (my : state_history_plugin_impl) :=
  {| block_state_log := block_state_log my; trace_log := log;
     chain_state_log := chain_state_log my; traces := traces my |}.

Definition set_chain_state_log (log : history_log) (my : state_history_plugin_impl) :=
  {| block_state_log := block_state_log my; trace_log := trace_log my;
     chain_state_log := log; traces := traces my |}.

Definition set_traces (m : gmap N transaction_trace) (my : state_history_plugin_impl) :=
  {| block_state_log := block_state_log my; trace_log := trace_log my;
     chain_state_log := chain_state_log my; traces := m |}.

(** The plugin as [plugin_initialize] leaves it on an empty directory. *)
Definition initial_plugin : state_history_plugin_impl :=
  {| block_state_log := empty_log; trace_log := empty_log;
     chain_state_log := empty_log; traces := ∅ |}.

(** What a member function that updates the plugin does: the plugin is
    kept as it is when the function returns and as it is when an exception
    leaves it. *)
Inductive result (A : Type) : Type :=
| Returns (a : A) (my : state_history_plugin_impl)
| Throws (e : exn) (my : state_history_plugin_impl)
| Crashes.

Arguments Returns {A} a my.
Arguments Throws {A} e my.
Arguments Crashes {A}.

(** Sequencing of member functions: the second runs on the plugin the first
    one returned with, and does not run when the first one did not return. *)
Definition rbind {A B : Type} (m : state_history_plugin_impl -> result A)
    (k : A -> state_history_plugin_impl -> result B) : state_history_plugin_impl -> result B :=
  fun my =>
    match m my with
    | Returns a my' => k a my'
    | Throws e my' => Throws e my'
    | Crashes => Crashes
    end.

Notation "m >>> k" := (rbind m (fun _ => k)) (at level 65, right associativity).

Module Plugin.
Section Impl.
Context {ser : Serialization}.

(** [stream.read] of the four bytes of a [uint32_t] that was declared
    without an initialiser; on a short read the value stays (partly)
    indeterminate, and using it is undefined. *)
Definition read_uint32 (stream : bytes) : outcome (Z * bytes) :=
  let r := Wire.stream_read 4 [] stream in
  if (length (fst r) =? 4)%nat then Ok (Wire.of_le (fst r), snd r) else Undefined.

Definition get_data (log : history_log) (block_num : Z) (result : option bytes)
  : outcome (option bytes) :=
  if (block_num <? begin_block log) || (block_num >=? end_block log) then
    Ok result
  else
    do entry <- get_entry log block_num;
    do sz <- read_uint32 (snd entry);
    let s := fst sz in
    let stream := snd sz in
    (* result.emplace(); result->resize(s); *)
    let result := repeat x00 (Z.to_nat s) in
    if negb (s =? 0) then
      Ok (Some (fst (Wire.stream_read (Z.to_nat s) result stream)))
    else
      Ok (Some result).

Definition get_block (chain : controller) (block_num : Z) (result : option bytes)
  : outcome (option bytes) :=
  match fetch_block_by_number chain block_num with
  | Some p => Ok (Some (pack_signed_block p))
  | None => Undefined (* [*p] of a null pointer *)
  end.

Definition on_applied_transaction (p : transaction_trace) (my : state_history_plugin_impl)
  : state_history_plugin_impl :=
  match receipt p with
  | Some _ => set_traces (<[id p := p]> (traces my)) my
  | None => my
  end.

Definition store_block_state (bs : block_state) (my : state_history_plugin_impl)
  : result unit :=
  (* todo *)
  Returns tt my.

(** The loop of [store_traces]: the buffered traces of the block's
    transactions, in block order, skipping missing and receiptless ones. *)
Fixpoint collect_traces (buffer : gmap N transaction_trace) (ids : list N)
  : list transaction_trace :=
  match ids with
  | [] => []
  | p :: ids' =>
      match buffer !! p with
      | Some t =>
          match receipt t with
          | Some _ => t :: collect_traces buffer ids'
          | None => collect_traces buffer ids'
          end
      | None => collect_traces buffer ids'
      end
  end.

Definition store_traces (bs : block_state) (my : state_history_plugin_impl) : result unit :=
  let traces := collect_traces (traces my) (trxs bs) in
  let my := set_traces ∅ my in
  let traces_bin := pack_traces traces in
  let size := Z.of_nat (length traces_bin) in
  if size =? Wire.to_uint32 size then
    let header := {| block_num := sb_block_num (block bs);
                     block_id := sb_id (block bs);
                     payload_size := 4 + size |} in
    let s := Wire.to_uint32 size in
    match write_entry (trace_log my) header (previous (block bs))
            (Wire.le32 s ++ (if bool_decide (traces_bin = []) then [] else traces_bin)) with
    | Ok log => Returns tt (set_trace_log log my)
    | Throw e => Throws e my
    | Undefined => Crashes
    end
  else
    Throws (plugin_exception "traces is too big") my.

(** [index.find(id)]: the row or a null pointer. *)
Definition index_find (index : chainbase_index) (oid : Z) : option chain_row :=
  List.find (fun row => row_id row =? oid) (indices index).

(** [index.get(id)]: the row, or [std::out_of_range]. *)
Definition index_get (index : chainbase_index) (oid : Z) : outcome chain_row :=
  match index_find index oid with
  | Some row => Ok row
  | None => Throw std_out_of_range
  end.

(** The loop that fills [removed_table_id] from the top undo frame of the
    table id index. *)
Definition collect_removed_table_id (removed : list (Z * chain_row)) : gmap Z chain_row :=
  fold_left (fun m rem => <[fst rem := snd rem]> m) removed ∅.

Definition get_table_id (table_id_index : chainbase_index)
    (removed_table_id : gmap Z chain_row) (tid : Z) : outcome chain_row :=
  match index_find table_id_index tid with
  | Some obj => Ok obj
  | None =>
      match removed_table_id !! tid with
      | Some obj => Ok obj
      | None => Throw (plugin_exception "can not found table id ${tid}")
      end
  end.

(** The two row packers, at the row type of table [t]. *)
Definition pack_row (t : table) (row : chain_row) : outcome bytes :=
  Ok (pack_serial_row t row).

Definition pack_contract_row (table_id_index : chainbase_index)
    (removed_table_id : gmap Z chain_row) (t : table) (row : chain_row) : outcome bytes :=
  do tid <- get_table_id table_id_index removed_table_id (t_id row);
  Ok (pack_table_row t tid row).

(** [delta.rows.emplace_back(flag, pack_row(row))] *)
Definition emplace_row (pack : chain_row -> outcome bytes) (flag : bool) (row : chain_row)
    (rows : list (bool * bytes)) : outcome (list (bool * bytes)) :=
  do data <- pack row;
  Ok (rows ++ [(flag, data)]).

(** The conversion of an object id to the [bool] that [emplace_back]
    constructs the row's first member from. *)
Definition bool_of_id (oid : Z) : bool := negb (oid =? 0).

Definition process_table (fresh : bool) (name : string) (index : chainbase_index)
    (pack : chain_row -> outcome bytes) (deltas : list table_delta)
  : outcome (list table_delta) :=
  if fresh then
    if bool_decide (indices index = []) then Ok deltas
    else
      do rows <- ofold (fun rows row => emplace_row pack (bool_of_id (row_id row)) row rows)
                   [] (indices index);
      Ok (deltas ++ [{| name := name; rows := rows |}])
  else
    match last (stack index) with
    | None => Ok deltas
    | Some undo =>
        if bool_decide (old_values undo = []) && bool_decide (new_ids undo = [])
           && bool_decide (removed_values undo = []) then Ok deltas
        else
          do rows <- ofold (fun rows old =>
                              do row <- index_get index (fst old);
                              emplace_row pack true row rows)
                       [] (old_values undo);
          do rows <- ofold (fun rows oid =>
                              do row <- index_get index oid;
                              emplace_row pack true row rows)
                       rows (new_ids undo);
          do rows <- ofold (fun rows old => emplace_row pack false (snd old) rows)
                       rows (removed_values undo);
          Ok (deltas ++ [{| name := name; rows := rows |}])
    end.

Inductive packer : Type := plain | contract_scoped.

(** The calls of [process_table] in [store_chain_state], top to bottom. *)
Definition table_passes : list (table * packer) :=
  [ (account, plain);
    (contract_table, plain);
    (contract_row, contract_scoped);
    (contract_index64, contract_scoped);
    (contract_index128, contract_scoped);
    (contract_index256, contract_scoped);
    (contract_index_double, contract_scoped);
    (contract_index_long_double, contract_scoped);
    (global_property, plain);
    (generated_transaction, plain);
    (permission, plain);
    (permission_link, plain);
    (resource_limits, plain);
    (resource_usage, plain);
    (resource_limits_state, plain);
    (resource_limits_config, plain) ].

Definition packer_of (chain : controller) (removed_table_id : gmap Z chain_row)
    (k : packer) (t : table) : chain_row -> outcome bytes :=
  match k with
  | plain => pack_row t
  | contract_scoped => pack_contract_row (db chain contract_table) removed_table_id t
  end.

(** The deltas of [store_chain_state], up to their serialisation. *)
Definition chain_state_deltas (chain : controller) (fresh : bool) : outcome (list table_delta) :=
  match last (stack (db chain contract_table)) with
  | None => Undefined (* [stack().back()] of an empty stack *)
  | Some top =>
      let removed_table_id := collect_removed_table_id (removed_values top) in
      ofold (fun deltas pass =>
               process_table fresh (table_tag (fst pass)) (db chain (fst pass))
                 (packer_of chain removed_table_id (snd pass) (fst pass)) deltas)
        [] table_passes
  end.

Definition store_chain_state (chain : controller) (bs : block_state)
    (my : state_history_plugin_impl) : result unit :=
  let fresh := begin_block (chain_state_log my) =? end_block (chain_state_log my) in
  match chain_state_deltas chain fresh with
  | Ok deltas =>
      let deltas_bin := pack_deltas deltas in
      let size := Z.of_nat (length deltas_bin) in
      if size =? Wire.to_uint32 size then
        let header := {| block_num := sb_block_num (block bs);
                         block_id := sb_id (block bs);
                         payload_size := 4 + size |} in
        let s := Wire.to_uint32 size in
        match write_entry (chain_state_log my) header (previous (block bs))
                (Wire.le32 s ++ (if bool_decide (deltas_bin = []) then [] else deltas_bin)) with
        | Ok log => Returns tt (set_chain_state_log log my)
        | Throw e => Throws e my
        | Undefined => Crashes
        end
      else
        Throws (plugin_exception "deltas is too big") my
  | Throw e => Throws e my
  | Undefined => Crashes
  end.

Definition on_accepted_block (chain : controller) (bs : block_state)
  : state_history_plugin_impl -> result unit :=
  store_block_state bs >>>
  store_traces bs >>>
  store_chain_state chain bs.

(** ** Request handlers of a session *)

Definition handle_get_status (chain : controller) (my : state_history_plugin_impl)
  : get_status_result_v0 :=
  {| status_last_irreversible_block_num := last_irreversible_block_num chain;
     status_last_irreversible_block_id := last_irreversible_block_id chain;
     state_begin_block_num := begin_block (chain_state_log my);
     state_end_block_num := end_block (chain_state_log my) |}.

Definition handle_get_block (chain : controller) (my : state_history_plugin_impl)
    (req_block_num : Z) : outcome get_block_result_v0 :=
  let result := {| result_block_num := req_block_num; result_block := None;
                   result_block_state := None; result_traces := None;
                   result_deltas := None |} in
  do blk <- get_block chain req_block_num (result_block result);
  do bst <- get_data (block_state_log my) req_block_num (result_block_state result);
  do trc <- get_data (trace_log my) req_block_num (result_traces result);
  do dlt <- get_data (chain_state_log my) req_block_num (result_deltas result);
  Ok {| result_block_num := req_block_num; result_block := blk;
        result_block_state := bst; result_traces := trc; result_deltas := dlt |}.

(** [req.visit( *this )] up to the [send] that ends each handler: the
    result object the handler sends. *)
Definition visit (chain : controller) (my : state_history_plugin_impl) (req : state_request)
  : outcome state_result :=
  match req with
  | get_status_request_v0 => Ok (status_result (handle_get_status chain my))
  | get_block_request_v0 n => do r <- handle_get_block chain my n; Ok (block_result r)
  end.

End Impl.
End Plugin.

(** ** Sessions

    A session runs on the single-threaded event loop: its state changes
    only when a completion handler runs.  The websocket stream is the
    list of writes handed to [async_write] that have not completed yet and
    the list of frames that have been written out, each with the
    binary-mode flag it was sent under. *)

Module Session.
Section Protocol.
Context {ser : Serialization}.

Record session : Type := {
  sending : bool;
  sentAbi : bool;
  send_queue : list bytes;
  is_open : bool;
  writes_in_flight : list (bool * bytes);
  written : list (bool * bytes)
}.

Definition new_session : session :=
  {| sending := false; sentAbi := false; send_queue := [];
     is_open := true; writes_in_flight := []; written := [] |}.

(** [send()] *)
Definition send (s : session) : session :=
  if sending s || bool_decide (send_queue s = []) then s
  else
    (* stream->binary(sentAbi); async_write(buffer(send_queue[0]), ...) *)
    {| sending := true;
       sentAbi := true;
       send_queue := send_queue s;
       is_open := is_open s;
       writes_in_flight := writes_in_flight s ++ [(sentAbi s, hd [] (send_queue s))];
       written := written s |}.

(** [send] of a C string and [send] of a result object, after the
    argument has been turned into the frame's bytes. *)
Definition send_frame (frame : bytes) (s : session) : session :=
  send {| sending := sending s; sentAbi := sentAbi s;
          send_queue := send_queue s ++ [frame];
          is_open := is_open s; writes_in_flight := writes_in_flight s;
          written := written s |}.

Definition close (s : session) : session :=
  {| sending := sending s; sentAbi := sentAbi s; send_queue := send_queue s;
     is_open := false; writes_in_flight := writes_in_flight s; written := written s |}.

(** The handler of [async_accept] in [start]. *)
Definition on_accept (s : session) : session :=
  send_frame state_history_plugin_abi s.

(** The handler of [async_read] in [start_read], for a frame that
    unpacks to [req]; [chain] and [my] are the controller and the plugin
    as they are when the handler runs. *)
Definition on_read (chain : controller) (my : state_history_plugin_impl)
    (req : state_request) (s : session) : outcome session :=
  match Plugin.visit chain my req with
  | Ok r => Ok (send_frame (pack_state_result r) s)
  | Throw _ => Ok (close s)
  | Undefined => Undefined
  end.

(** The handler of [async_write] in [send()], for the write in flight
    [w] that has completed. *)
Definition on_write (w : bool * bytes) (others : list (bool * bytes)) (s : session)
  : outcome session :=
  match send_queue s with
  | [] => Undefined (* [erase(begin())] of an empty vector *)
  | _ :: queue =>
      Ok (send {| sending := false; sentAbi := sentAbi s; send_queue := queue;
                  is_open := is_open s; writes_in_flight := others;
                  written := written s ++ [w] |})
  end.

(** What the event loop delivers to a session. *)
Inductive event : Type :=
| read_done (chain : controller) (my : state_history_plugin_impl) (req : state_request)
| write_done
| failed.

(** One completion.  The handlers look at the error code only (and at
    [plugin->stopping], which [Server] tests before it comes here): a read
    or a write that completes without an error is handled whether or not
    [close] ran before.  [failed] is a read or a write that completes with
    an error code: [callback] goes to [on_fail], which closes, and the
    handler's body does not run. *)
Definition step (s : session) (ev : event) : outcome session :=
  match ev with
  | read_done chain my req => on_read chain my req s
  | write_done =>
      match writes_in_flight s with
      | [] => Ok s
      | w :: others => on_write w others s
      end
  | failed => Ok (close s)
  end.

Definition run (s : session) (evs : list event) : outcome session := ofold step s evs.

(** The frames that answer the requests of [evs], in the order the
    requests were read; a request whose handler throws gets none. *)
Fixpoint responses (evs : list event) : list bytes :=
  match evs with
  | [] => []
  | read_done chain my req :: evs' =>
      match Plugin.visit chain my req with
      | Ok r => pack_state_result r :: responses evs'
      | _ => responses evs'
      end
  | write_done :: evs' => responses evs'
  | failed :: evs' => responses evs'
  end.

End Protocol.
End Session.

(** ** Vocabulary of the properties *)

Module Expected.
Section Vocabulary.
Context {ser : Serialization}.
Import Plugin Session.

Definition apply_all (ps : list transaction_trace) (my : state_history_plugin_impl)
  : state_history_plugin_impl :=
  fold_left (fun my p => on_applied_transaction p my) ps my.

(** What [store_traces] and [store_chain_state] do once their byte
    vector [bin] passed the size assertion. *)
Definition sized_header (bs : block_state) (bin : bytes) : history_log_header :=
  {| block_num := sb_block_num (block bs); block_id := sb_id (block bs);
     payload_size := 4 + Z.of_nat (length bin) |}.

Definition sized_payload (bin : bytes) : bytes :=
  Wire.le32 (Z.of_nat (length bin)) ++ bin.

Definition block_traces_bin (bs : block_state) (my : state_history_plugin_impl) : bytes :=
  pack_traces (collect_traces (traces my) (trxs bs)).

(** The rows a table's delta is built from when the log is not fresh:
    the live rows of the modified ids, the live rows of the new ids, the
    captured values of the removed rows. *)
Definition undo_rows (live : Z -> chain_row) (undo : undo_state) : list chain_row :=
  map (fun old => live (fst old)) (old_values undo)
  ++ map live (new_ids undo)
  ++ map snd (removed_values undo).

Definition undo_is_empty (undo : undo_state) : bool :=
  bool_decide (old_values undo = []) && bool_decide (new_ids undo = [])
  && bool_decide (removed_values undo = []).

Definition undo_delta (name : string) (live : Z -> chain_row) (data : chain_row -> bytes)
    (index : chainbase_index) : list table_delta :=
  match last (stack index) with
  | None => []
  | Some undo =>
      if undo_is_empty undo then []
      else
        [ {| name := name;
             rows := map (fun old => (true, data (live (fst old)))) (old_values undo)
                     ++ map (fun oid => (true, data (live oid))) (new_ids undo)
                     ++ map (fun old => (false, data (snd old))) (removed_values undo) |} ]
  end.

(** The delta of a table on a fresh log, as the code builds it: the first
    member of each row is the row's object id converted to [bool]. *)
Definition fresh_delta (name : string) (data : chain_row -> bytes) (index : chainbase_index)
  : list table_delta :=
  match indices index with
  | [] => []
  | _ :: _ =>
      [ {| name := name;
           rows := map (fun row => (bool_of_id (row_id row), data row)) (indices index) |} ]
  end.

(** The bytes of a row, given the table id object [tid] resolves ids to. *)
Definition row_data (tid : Z -> chain_row) (pass : table * packer) (row : chain_row) : bytes :=
  match snd pass with
  | plain => pack_serial_row (fst pass) row
  | contract_scoped => pack_table_row (fst pass) (tid (t_id row)) row
  end.

Definition stored_id (e : log_entry) : block_id_type := block_id (entry_header e).

(** What [write_entry] looks at in a log: where it begins and the block
    ids it holds. *)
Definition ancestry (log : history_log) : Z * list block_id_type :=
  (first_block log, map stored_id (entries log)).

(** The trace log and the chain-state log hold the same blocks. *)
Definition aligned (my : state_history_plugin_impl) : Prop :=
  ancestry (trace_log my) = ancestry (chain_state_log my).

(** L4 as the spec words it: the three logs share their range. *)
Definition three_logs_share_range (my : state_history_plugin_impl) : Prop :=
  begin_block (block_state_log my) = begin_block (trace_log my) /\
  begin_block (trace_log my) = begin_block (chain_state_log my) /\
  end_block (block_state_log my) = end_block (trace_log my) /\
  end_block (trace_log my) = end_block (chain_state_log my).

(** The accepted block extends the log: the log is empty, or the block
    is number [end_block] and its parent is the newest stored block. *)
Definition extends (log : history_log) (bs : block_state) : Prop :=
  entries log = [] \/
  exists older newest,
    entries log = older ++ [newest] /\
    sb_block_num (block bs) = end_block log /\
    stored_id newest = previous (block bs).

(** What every completion handler leaves behind: either a write is in
    flight, for the frame at the head of the queue, or nothing is queued;
    and the frames written out followed by the queue are [frames], all
    the frames that were ever queued, in the order they were queued. *)
Definition queue_inv (s : session) (frames : list bytes) : Prop :=
  map snd (written s) ++ send_queue s = frames /\
  ((sending s = true /\
    exists flag front rest,
      send_queue s = front :: rest /\ writes_in_flight s = [(flag, front)]) \/
   (sending s = false /\ send_queue s = [] /\ writes_in_flight s = [])).

(** What the chain controller signals to the plugin. *)
Inductive chain_event : Type :=
| applied_transaction (p : transaction_trace)
| accepted_block (chain : controller) (bs : block_state).

(** The plugin's slots run on the signals of [evs], one after the other,
    up to the first one that does not return. *)
Fixpoint ingest (evs : list chain_event) (my : state_history_plugin_impl) : result unit :=
  match evs with
  | [] => Returns tt my
  | applied_transaction p :: evs' => ingest evs' (on_applied_transaction p my)
  | accepted_block chain bs :: evs' => (on_accepted_block chain bs >>> ingest evs') my
  end.

End Vocabulary.
End Expected.
Import Expected.

(** ** A small concrete chain, used to run the definitions *)

Module Demo.

Definition flag_byte (b : bool) : byte := if b then x01 else x00.

Definition opt_bytes (o : option bytes) : bytes :=
  match o with
  | Some v => x01 :: Wire.le32 (Z.of_nat (length v)) ++ v
  | None => [x00]
  end.

Definition ser : Serialization :=
  {| pack_header := fun h => Wire.le32 (block_num h);
     pack_signed_block := sb_content;
     pack_traces := flat_map trace_content;
     pack_deltas :=
       flat_map (fun d => flat_map (fun r => flag_byte (fst r) :: snd r) (rows d));
     pack_serial_row := fun _ row => row_content row;
     pack_table_row := fun _ tid row => row_content tid ++ row_content row;
     pack_state_result := fun r =>
       match r with
       | status_result st => x00 :: Wire.le32 (state_end_block_num st)
       | block_result b =>
           x01 :: Wire.le32 (result_block_num b) ++ opt_bytes (result_block b)
               ++ opt_bytes (result_block_state b) ++ opt_bytes (result_traces b)
               ++ opt_bytes (result_deltas b)
       end;
     state_history_plugin_abi := [x7b; x7d] |}.

Definition no_rows : chainbase_index := {| indices := []; stack := [] |}.

Definition idle_frame : undo_state :=
  {| old_values := []; removed_values := []; new_ids := [] |}.

Definition alice : chain_row := {| row_id := 0; t_id := 0; row_content := [x61] |}.
Definition bob : chain_row := {| row_id := 1; t_id := 0; row_content := [x62] |}.
Definition carol : chain_row := {| row_id := 2; t_id := 0; row_content := [x63] |}.
Definition bob_before : chain_row := {| row_id := 1; t_id := 0; row_content := [x42] |}.
Definition dave_removed : chain_row := {| row_id := 3; t_id := 0; row_content := [x64] |}.

Definition block_of (n : Z) (i prev : N) : signed_block :=
  {| sb_block_num := n; sb_id := i; previous := prev; sb_content := [x42] |}.

(** The first block's view: one account whose object id is 0, and an
    undo session open on every index that has one. *)
Definition genesis_chain : controller :=
  {| db := fun t =>
       match t with
       | account => {| indices := [alice]; stack := [idle_frame] |}
       | contract_table => {| indices := []; stack := [idle_frame] |}
       | _ => no_rows
       end;
     fetch_block_by_number := fun n => if n =? 100 then Some (block_of 100 7 6) else None;
     last_irreversible_block_num := 99;
     last_irreversible_block_id := 6 |}.

(** A later block's view: [bob] was modified, [carol] created and
    [dave_removed] removed from the accounts in the block; a contract
    row scoped to a table id that the block removed was removed with it. *)
Definition scope_removed : chain_row := {| row_id := 5; t_id := 0; row_content := [x74] |}.
Definition kv_removed : chain_row := {| row_id := 9; t_id := 5; row_content := [x6b] |}.

Definition later_chain : controller :=
  {| db := fun t =>
       match t with
       | account =>
           {| indices := [alice; bob; carol];
              stack := [idle_frame;
                        {| old_values := [(1, bob_before)];
                           removed_values := [(3, dave_removed)];
                           new_ids := [2] |}] |}
       | contract_table =>
           {| indices := [];
              stack := [{| old_values := []; removed_values := [(5, scope_removed)];
                           new_ids := [] |}] |}
       | contract_row =>
           {| indices := [];
              stack := [{| old_values := []; removed_values := [(9, kv_removed)];
                           new_ids := [] |}] |}
       | _ => no_rows
       end;
     fetch_block_by_number := fun n => if n =? 100 then Some (block_of 100 7 6) else None;
     last_irreversible_block_num := 99;
     last_irreversible_block_id := 6 |}.

Definition trace_of (i : N) (content : bytes) : transaction_trace :=
  {| id := i; receipt := Some [x01]; trace_content := content |}.

Definition block_100 : block_state := {| block := block_of 100 7 6; trxs := [11%N; 12%N] |}.
Definition block_101 : block_state := {| block := block_of 101 8 7; trxs := [] |}.

(** The plugin after one applied transaction and the first accepted block. *)
Definition plugin_before_100 : state_history_plugin_impl :=
  @Plugin.on_applied_transaction (trace_of 11 [x74; x31]) initial_plugin.

Definition outcome_of_100 : result unit :=
  @Plugin.on_accepted_block ser genesis_chain block_100 plugin_before_100.

Definition plugin_of (r : result unit) : state_history_plugin_impl :=
  match r with
  | Returns _ my => my
  | Throws _ my => my
  | Crashes => initial_plugin
  end.

Definition plugin_after_100 : state_history_plugin_impl := plugin_of outcome_of_100.

(** The plugin after block 101, which has no transactions. *)
Definition plugin_after_101 : state_history_plugin_impl :=
  plugin_of (@Plugin.on_accepted_block ser later_chain block_101 plugin_after_100).

End Demo.

(** ** Vocabulary of further properties *)

Module Invariants.
Section Vocabulary.
Context {ser : Serialization}.
Import Plugin Session.

(** Each buffered trace sits under its own id and carries a receipt. *)
Definition buffer_keyed (m : gmap N transaction_trace) : Prop :=
  forall k t, m !! k = Some t -> id t = k /\ is_Some (receipt t).

(** [p] is a trace that [on_applied_transaction] stores under [k]. *)
Definition stored_under (k : N) (p : transaction_trace) : bool :=
  match receipt p with
  | Some _ => (id p =? k)%N
  | None => false
  end.

(** An entry as the payload writers of [store_traces] and
    [store_chain_state] leave it: a u32 size followed by that many bytes,
    under a header whose [payload_size] counts all of them. *)
Definition entry_sized (e : log_entry) : Prop :=
  exists bin,
    Z.of_nat (length bin) <= 2 ^ 32 - 1 /\
    entry_payload e = sized_payload bin /\
    payload_size (entry_header e) = Z.of_nat (length (entry_payload e)).

Definition log_sized (log : history_log) : Prop := Forall entry_sized (entries log).

(** What [get_table_id] throws. *)
Definition unknown_table_id : exn := plugin_exception "can not found table id ${tid}".

(** The frames handed to the stream so far: the ABI as a text frame, then
    binary frames only. *)
Definition frames_flagged (s : session) : Prop :=
  sentAbi s = true /\
  exists rest,
    written s ++ writes_in_flight s = (false, state_history_plugin_abi) :: rest /\
    Forall (fun w => fst w = true) rest.

(** The number of blocks a log covers. *)
Definition block_count (log : history_log) : Z := end_block log - begin_block log.

End Vocabulary.
End Invariants.
Import Invariants.

(** ** Further concrete inputs *)

Module Scenarios.

(** A contract row scoped to table id 77, which is neither live nor among
    the table ids removed in the block. *)
Definition orphan_row : chain_row := {| row_id := 4; t_id := 77; row_content := [x6f] |}.

Definition orphan_chain : controller :=
  {| db := fun t =>
       match t with
       | account => {| indices := [Demo.alice]; stack := [Demo.idle_frame] |}
       | contract_table => {| indices := []; stack := [Demo.idle_frame] |}
       | contract_row => {| indices := [orphan_row]; stack := [Demo.idle_frame] |}
       | _ => Demo.no_rows
       end;
     fetch_block_by_number := fun _ => None;
     last_irreversible_block_num := 99;
     last_irreversible_block_id := 6 |}.

End Scenarios.

(** ** The endpoint option

    [plugin_initialize] splits the [state-history-endpoint] option at a
    colon with [std::string::find] and [substr] and converts the port with
    [std::stoi]; [size_t] is 64 bits wide. *)

Module Config.

Inductive std_error : Type := invalid_argument | out_of_range.

Inductive parsed (A : Type) : Type :=
| Parsed (a : A)
| Fails (e : std_error).

Arguments Parsed {A} a.
Arguments Fails {A} e.

Definition pbind {A B : Type} (m : parsed A) (k : A -> parsed B) : parsed B :=
  match m with
  | Parsed a => k a
  | Fails e => Fails e
  end.

Definition npos : Z := 2 ^ 64 - 1.

Definition size (s : string) : Z := Z.of_nat (String.length s).

(** [s.find(c)], counting from [pos]: the position of the first [c], or
    [npos]. *)
Fixpoint find_from (c : Ascii.ascii) (s : string) (pos : Z) : Z :=
  match s with
  | EmptyString => npos
  | String a s' => if Ascii.eqb a c then pos else find_from c s' (pos + 1)
  end.

Definition find (c : Ascii.ascii) (s : string) : Z := find_from c s 0.

(** [s.substr(pos, count)]: [std::out_of_range] when [pos] is past the
    end, else the characters from [pos], at most [count] of them. *)
Definition substr (s : string) (pos count : Z) : parsed string :=
  if size s <? pos then Fails out_of_range
  else Parsed (String.substring (Z.to_nat pos) (Z.to_nat (Z.min count (size s - pos))) s).

Definition isspace (c : Ascii.ascii) : bool :=
  let n := Z.of_N (Ascii.N_of_ascii c) in
  (n =? 32) || ((9 <=? n) && (n <=? 13)).

Definition digit_of (c : Ascii.ascii) : option Z :=
  let n := Z.of_N (Ascii.N_of_ascii c) in
  if (48 <=? n) && (n <=? 57) then Some (n - 48) else None.

Fixpoint skip_space (s : string) : string :=
  match s with
  | String c s' => if isspace c then skip_space s' else s
  | EmptyString => s
  end.

(** The digits at the front of [s], read in base ten on top of [acc], and
    whether there was any. *)
Fixpoint digits (s : string) (acc : Z) (seen : bool) : Z * bool :=
  match s with
  | String c s' =>
      match digit_of c with
      | Some d => digits s' (10 * acc + d) true
      | None => (acc, seen)
      end
  | EmptyString => (acc, seen)
  end.

(** [std::stoi(s)]: white space, an optional sign, decimal digits;
    [std::invalid_argument] without a digit, [std::out_of_range] for a
    value that is not an [int]. *)
Definition stoi (s : string) : parsed Z :=
  let s := skip_space s in
  let signed :=
    match s with
    | String "-"%char s' => (true, s')
    | String "+"%char s' => (false, s')
    | _ => (false, s)
    end in
  let r := digits (snd signed) 0 false in
  if negb (snd r) then Fails invalid_argument
  else
    let v := if fst signed then - fst r else fst r in
    if (v <? - 2 ^ 31) || (2 ^ 31 - 1 <? v) then Fails out_of_range else Parsed v.

Record endpoint : Type := {
  endpoint_address : string;
  endpoint_port : Z
}.

(** The endpoint lines of [plugin_initialize]; the port goes through the
    conversion from [int] to [uint16_t]. *)
Definition plugin_initialize_endpoint (ip_port : string) : parsed endpoint :=
  pbind (substr ip_port ((find ":"%char ip_port + 1) mod 2 ^ 64) (size ip_port)) (fun port =>
  pbind (substr ip_port 0 (find ":"%char ip_port)) (fun host =>
  pbind (stoi port) (fun p =>
  Parsed {| endpoint_address := host; endpoint_port := p mod 2 ^ 16 |}))).

(** A number written in base ten, most significant digit first. *)
Definition digit_char (d : Z) : Ascii.ascii := Ascii.ascii_of_N (Z.to_N (48 + d)).

Fixpoint digit_string (ds : list Z) : string :=
  match ds with
  | [] => EmptyString
  | d :: ds' => String (digit_char d) (digit_string ds')
  end.

Definition decimal (ds : list Z) : Z := fold_left (fun acc d => 10 * acc + d) ds 0.

Definition is_digit (d : Z) : Prop := 0 <= d <= 9.

(** Whether [c] occurs in [s]. *)
Fixpoint mentions (c : Ascii.ascii) (s : string) : bool :=
  match s with
  | EmptyString => false
  | String a s' => Ascii.eqb a c || mentions c s'
  end.

End Config.

(** ** The acceptor and the registry of sessions

    [listen], [do_accept], the session callbacks that reach [close], and
    [plugin_shutdown].  The registry [sessions] is keyed by the address of
    the session object; an accepted connection comes with the address its
    session is allocated at. *)

Module Server.
Section Acceptor.
Context {ser : Serialization}.

Record server : Type := {
  stopping : bool;
  sessions : gmap N Session.session;
  accepts_pending : nat
}.

Definition set_sessions (m : gmap N Session.session) (srv : server) : server :=
  {| stopping := stopping srv; sessions := m; accepts_pending := accepts_pending srv |}.

(** The plugin before [plugin_startup]. *)
Definition stopped_acceptor : server :=
  {| stopping := false; sessions := ∅; accepts_pending := 0 |}.

(** [do_accept]: one more [async_accept] on the acceptor. *)
Definition do_accept (srv : server) : server :=
  {| stopping := stopping srv; sessions := sessions srv;
     accepts_pending := S (accepts_pending srv) |}.

(** [listen]: [open_ok], [bind_ok] and [listen_ok] tell whether the
    acceptor's [open], [bind] and [listen] left the error code clear. *)
Definition listen (open_ok bind_ok listen_ok : bool) (srv : server) : outcome server :=
  if negb open_ok then Throw (plugin_exception "unable top open listen socket")
  else if negb bind_ok then Throw (plugin_exception "unable top open listen socket")
  else if negb listen_ok then Throw (plugin_exception "unable top open listen socket")
  else Ok (do_accept srv).

Inductive accept_error : Type := too_many_files_open | other_error.

(** [session::close] as the plugin sees it: the session leaves the registry. *)
Definition close_session (addr : N) (srv : server) : server :=
  set_sessions (delete addr (sessions srv)) srv.

(** The handler of [async_accept] in [do_accept]; [catch_and_log] keeps an
    exception of [start] from leaving, after the session was registered. *)
Definition on_accepted (ec : option accept_error) (addr : N) (srv : server) : server :=
  if stopping srv then srv
  else
    match ec with
    | Some too_many_files_open => do_accept srv
    | Some other_error => srv
    | None => do_accept (set_sessions (<[addr := Session.new_session]> (sessions srv)) srv)
    end.

(** The handler of the websocket [async_accept] in [session::start]. *)
Definition on_handshake (ok : bool) (addr : N) (s : Session.session) (srv : server) : server :=
  if stopping srv then srv
  else if ok then set_sessions (<[addr := Session.on_accept s]> (sessions srv)) srv
  else close_session addr srv.

(** A read or write completion of a registered session; a session that
    ends up closed has erased itself from the registry. *)
Definition on_completion (ev : Session.event) (addr : N) (s : Session.session) (srv : server)
  : outcome server :=
  if stopping srv then Ok srv
  else
    match Session.step s ev with
    | Ok s' =>
        if Session.is_open s' then Ok (set_sessions (<[addr := s']> (sessions srv)) srv)
        else Ok (close_session addr srv)
    | Throw _ => Ok (close_session addr srv)
    | Undefined => Undefined
    end.

Inductive event : Type :=
| accept_done (ec : option accept_error) (addr : N)
| handshake_done (addr : N) (ok : bool)
| session_done (addr : N) (ev : Session.event).

(** One completion on the event loop.  A completion for a session that
    has left the registry changes nothing of the registry. *)
Definition step (srv : server) (ev : event) : outcome server :=
  match ev with
  | accept_done ec addr =>
      match accepts_pending srv with
      | O => Ok srv
      | S n =>
          Ok (on_accepted ec addr
                {| stopping := stopping srv; sessions := sessions srv; accepts_pending := n |})
      end
  | handshake_done addr ok =>
      match sessions srv !! addr with
      | Some s => Ok (on_handshake ok addr s srv)
      | None => Ok srv
      end
  | session_done addr ev =>
      match sessions srv !! addr with
      | Some s => on_completion ev addr s srv
      | None => Ok srv
      end
  end.

Definition run (srv : server) (evs : list event) : outcome server := ofold step srv evs.

(** [sessions.begin()]: the registered session with the least address. *)
Definition begin_key (m : gmap N Session.session) : option N :=
  match map_to_list m with
  | [] => None
  | kv :: rest => Some (fold_right (fun kv acc => N.min (fst kv) acc) (fst kv) rest)
  end.

(** The loop of [plugin_shutdown], at most [fuel] rounds of it. *)
Fixpoint close_all (fuel : nat) (srv : server) : server :=
  match fuel with
  | O => srv
  | S fuel' =>
      match begin_key (sessions srv) with
      | None => srv
      | Some addr => close_all fuel' (close_session addr srv)
      end
  end.

Definition plugin_shutdown (srv : server) : server :=
  let srv := close_all (size (sessions srv)) srv in
  {| stopping := true; sessions := sessions srv; accepts_pending := accepts_pending srv |}.

(** Every registered session has its stream open. *)
Definition registry_open (srv : server) : Prop :=
  forall addr s, sessions srv !! addr = Some s -> Session.is_open s = true.

End Acceptor.
End Server.

(** * Properties *)

(** ** Byte streams *)

Module WireFacts.
Import Wire.

Lemma Z_of_byte_range b : 0 <= Z_of_byte b < 256.
Proof.
  unfold Z_of_byte. pose proof (Byte.to_N_bounded b). lia.
Qed.

Lemma Z_of_byte_of_Z z : Z_of_byte (byte_of_Z z) = z mod 256.
Proof.
  unfold Z_of_byte, byte_of_Z.
  assert (Hr : 0 <= z mod 256 < 256) by (apply Z.mod_pos_bound; lia).
  destruct (Byte.of_N (Z.to_N (z mod 256))) as [b|] eqn:E.
  - apply Byte.to_of_N in E. rewrite E. lia.
  - apply Byte.of_N_None_iff in E. lia.
Qed.

Lemma of_le_le32 s : of_le (le32 s) = to_uint32 s.
Proof.
  unfold le32, to_uint32, of_le. rewrite !Z_of_byte_of_Z.
  rewrite !Z.shiftr_div_pow2 by lia.
  change (2 ^ 8) with 256. change (2 ^ 16) with (256 * 256).
  change (2 ^ 24) with (256 * 256 * 256). change (2 ^ 32) with (256 * (256 * (256 * 256))).
  rewrite <- !Z.div_div by lia.
  set (a := s / 256). set (b := a / 256). set (c := b / 256).
  rewrite (Z.rem_mul_r s 256 (256 * (256 * 256))) by lia. fold a.
  rewrite (Z.rem_mul_r a 256 (256 * 256)) by lia. fold b.
  rewrite (Z.rem_mul_r b 256 256) by lia. fold c.
  lia.
Qed.

Lemma of_le_app a b : of_le (a ++ b) = of_le a + 256 ^ Z.of_nat (length a) * of_le b.
Proof.
  induction a as [|x a IH]; simpl length; simpl app; simpl of_le.
  - lia.
  - rewrite IH. rewrite Nat2Z.inj_succ, Z.pow_succ_r by lia. lia.
Qed.

Lemma stream_read_exact n buf data rest :
  length data = n -> stream_read n buf (data ++ rest) = (data, rest).
Proof.
  intros Hn. unfold stream_read. subst n.
  rewrite firstn_app, Nat.sub_diag, firstn_all. simpl firstn. rewrite app_nil_r.
  rewrite skipn_app, Nat.sub_diag, skipn_all. simpl.
  rewrite skipn_all2 by (rewrite length_firstn; lia).
  now rewrite app_nil_r.
Qed.

Lemma stream_read_length n buf stream :
  length buf = n -> length (fst (stream_read n buf stream)) = n.
Proof.
  intros Hn. unfold stream_read. simpl.
  rewrite length_app, length_skipn, !length_firstn. lia.
Qed.

Lemma to_uint32_small s : 0 <= s < 2 ^ 32 -> to_uint32 s = s.
Proof. intros Hs. unfold to_uint32. now apply Z.mod_small. Qed.

(** The size assertion [x == (uint32_t)x] of a [size_t] value holds
    exactly up to [2^32 - 1]. *)
Lemma fits_uint32 x : 0 <= x -> (x =? to_uint32 x) = (x <=? 2 ^ 32 - 1).
Proof.
  intros Hx. unfold to_uint32.
  destruct (Z.leb_spec x (2 ^ 32 - 1)) as [Hle | Hgt].
  - rewrite Z.mod_small by lia. apply Z.eqb_refl.
  - apply Z.eqb_neq. pose proof (Z.mod_pos_bound x (2 ^ 32)). lia.
Qed.

Lemma le32_length s : length (le32 s) = 4%nat.
Proof. reflexivity. Qed.

End WireFacts.

(** ** Reading a log entry back *)

Section GetData.
Context {ser : Serialization}.
Import Plugin.

Lemma read_uint32_le32 s rest :
  0 <= s < 2 ^ 32 -> read_uint32 (Wire.le32 s ++ rest) = Ok (s, rest).
Proof.
  intros Hs. unfold read_uint32.
  rewrite (WireFacts.stream_read_exact 4 [] (Wire.le32 s) rest) by reflexivity.
  cbn [fst snd]. rewrite WireFacts.le32_length, Nat.eqb_refl.
  now rewrite WireFacts.of_le_le32, WireFacts.to_uint32_small.
Qed.

(** Settles the two comparisons of [get_data]'s range test by arithmetic. *)
Ltac range_test n log :=
  destruct (Z.ltb_spec n (begin_block log)); [try reflexivity; try lia|];
  destruct (Z.geb_spec n (end_block log)); [try reflexivity; try lia|];
  try lia; cbn [orb].

Lemma get_data_outside log n res :
  n < begin_block log \/ end_block log <= n -> get_data log n res = Ok res.
Proof.
  intros Hout. unfold get_data. range_test n log.
Qed.

Lemma get_data_inside log n res hdr s data rest :
  begin_block log <= n < end_block log ->
  get_entry log n = Ok (hdr, Wire.le32 s ++ data ++ rest) ->
  0 <= s < 2 ^ 32 ->
  length data = Z.to_nat s ->
  get_data log n res = Ok (Some data).
Proof.
  intros Hin Hentry Hs Hlen. unfold get_data. range_test n log.
  rewrite Hentry. cbn [obind snd].
  rewrite read_uint32_le32 by assumption. cbn [obind fst snd].
  destruct (Z.eqb_spec s 0) as [-> | Hnz]; cbn [negb].
  - destruct data; [reflexivity | discriminate].
  - now rewrite WireFacts.stream_read_exact.
Qed.

(** Inside the range the optional is engaged whenever [get_data] returns. *)
Lemma get_data_engaged log n res v :
  begin_block log <= n < end_block log ->
  get_data log n res = Ok v -> exists data, v = Some data.
Proof.
  intros Hin. unfold get_data. range_test n log.
  destruct (get_entry log n) as [entry| |]; simpl obind; try discriminate.
  destruct (read_uint32 (snd entry)) as [sz| |]; simpl obind; try discriminate.
  destruct (negb (fst sz =? 0)); intros [= <-]; eauto.
Qed.

Lemma get_data_absent_iff log n v :
  get_data log n None = Ok v ->
  v = None <-> (n < begin_block log \/ end_block log <= n).
Proof.
  intros Hget.
  destruct (Z_lt_dec n (begin_block log)) as [Hlt | Hge].
  - rewrite get_data_outside in Hget by lia. injection Hget as <-. tauto.
  - destruct (Z_le_dec (end_block log) n) as [Hle | Hlt].
    + rewrite get_data_outside in Hget by lia. injection Hget as <-. tauto.
    + destruct (get_data_engaged log n None v) as [data ->]; [lia | assumption |].
      split; [discriminate | lia].
Qed.

Lemma handle_get_block_fields chain my n r :
  handle_get_block chain my n = Ok r ->
  get_data (block_state_log my) n None = Ok (result_block_state r) /\
  get_data (trace_log my) n None = Ok (result_traces r) /\
  get_data (chain_state_log my) n None = Ok (result_deltas r).
Proof.
  unfold handle_get_block. cbn [result_block result_block_state result_traces result_deltas].
  destruct (get_block chain n None) as [blk| |]; simpl obind; try discriminate.
  destruct (get_data (block_state_log my) n None) as [bst| |]; simpl obind; try discriminate.
  destruct (get_data (trace_log my) n None) as [trc| |]; simpl obind; try discriminate.
  destruct (get_data (chain_state_log my) n None) as [dlt| |]; simpl obind; try discriminate.
  intros [= <-]. auto.
Qed.

(** C5: in the answer to a GetBlock request each of [block_state],
    [traces] and [deltas] is what [get_data] leaves in an absent optional
    for its log, and is absent exactly when the requested block number is
    outside that log's [begin_block, end_block); inside, for an entry that
    starts with a u32 size [s] followed by [s] bytes, [get_data] yields
    exactly those bytes, and they are the value of the field. *)
Theorem get_block_log_fields (chain : controller) (my : state_history_plugin_impl) (n : Z) :
  (forall r, handle_get_block chain my n = Ok r ->
     (get_data (block_state_log my) n None = Ok (result_block_state r) /\
      (result_block_state r = None <->
         (n < begin_block (block_state_log my) \/ end_block (block_state_log my) <= n))) /\
     (get_data (trace_log my) n None = Ok (result_traces r) /\
      (result_traces r = None <->
         (n < begin_block (trace_log my) \/ end_block (trace_log my) <= n))) /\
     (get_data (chain_state_log my) n None = Ok (result_deltas r) /\
      (result_deltas r = None <->
         (n < begin_block (chain_state_log my) \/ end_block (chain_state_log my) <= n)))) /\
  (forall log hdr s data rest,
     begin_block log <= n < end_block log ->
     get_entry log n = Ok (hdr, Wire.le32 s ++ data ++ rest) ->
     0 <= s < 2 ^ 32 ->
     length data = Z.to_nat s ->
     get_data log n None = Ok (Some data)) /\
  (forall r hdr s data rest,
     handle_get_block chain my n = Ok r ->
     0 <= s < 2 ^ 32 ->
     length data = Z.to_nat s ->
     (begin_block (block_state_log my) <= n < end_block (block_state_log my) ->
      get_entry (block_state_log my) n = Ok (hdr, Wire.le32 s ++ data ++ rest) ->
      result_block_state r = Some data) /\
     (begin_block (trace_log my) <= n < end_block (trace_log my) ->
      get_entry (trace_log my) n = Ok (hdr, Wire.le32 s ++ data ++ rest) ->
      result_traces r = Some data) /\
     (begin_block (chain_state_log my) <= n < end_block (chain_state_log my) ->
      get_entry (chain_state_log my) n = Ok (hdr, Wire.le32 s ++ data ++ rest) ->
      result_deltas r = Some data)).
Proof.
  split; [|split].
  - intros r Hr. apply handle_get_block_fields in Hr as (Hb & Ht & Hd).
    repeat split; try assumption; eapply get_data_absent_iff; eassumption.
  - intros log hdr s data rest. apply get_data_inside.
  - intros r hdr s data rest Hr Hs Hlen.
    apply handle_get_block_fields in Hr as (Hb & Ht & Hd).
    repeat split; intros Hin Hentry.
    + rewrite (get_data_inside _ _ _ _ _ _ _ Hin Hentry Hs Hlen) in Hb. congruence.
    + rewrite (get_data_inside _ _ _ _ _ _ _ Hin Hentry Hs Hlen) in Ht. congruence.
    + rewrite (get_data_inside _ _ _ _ _ _ _ Hin Hentry Hs Hlen) in Hd. congruence.
Qed.

(** C9: an entry inside the range whose u32 size prefix is zero reads
    back as a present, empty byte sequence, which differs from the
    absent result of a block number outside the range. *)
Theorem get_data_zero_size (log : history_log) (n : Z) (res : option bytes)
    (hdr : history_log_header) (rest : bytes) :
  begin_block log <= n < end_block log ->
  get_entry log n = Ok (hdr, Wire.le32 0 ++ rest) ->
  get_data log n res = Ok (Some []) /\
  (Some [] : option bytes) <> None /\
  (forall m, m < begin_block log \/ end_block log <= m -> get_data log m None = Ok None).
Proof.
  intros Hin Hentry. split; [|split].
  - apply (get_data_inside log n res hdr 0 [] rest); [assumption | assumption | lia | reflexivity].
  - discriminate.
  - intros m Hm. now apply get_data_outside.
Qed.

End GetData.

(** ** The block store *)

Section GetBlock.
Context {ser : Serialization}.
Import Plugin.

Lemma get_block_null chain n res :
  fetch_block_by_number chain n = None -> get_block chain n res = Undefined.
Proof. intros H. unfold get_block. now rewrite H. Qed.

Lemma handle_get_block_null chain my n :
  fetch_block_by_number chain n = None -> handle_get_block chain my n = Undefined.
Proof. intros H. unfold handle_get_block. cbn [result_block]. now rewrite get_block_null. Qed.

End GetBlock.

(** C6: a GetBlock request for a block the store does not hold.  The
    store of [Demo.genesis_chain] holds block 100 only; for block 101
    [get_block] dereferences the null pointer it was given, so the handler
    has no defined result, and neither has the session's read completion:
    there is no response with an absent [block]. *)
Theorem get_block_of_unknown_block_is_undefined :
  fetch_block_by_number Demo.genesis_chain 101 = None /\
  @Plugin.get_block Demo.ser Demo.genesis_chain 101 None = Undefined /\
  @Plugin.handle_get_block Demo.ser Demo.genesis_chain Demo.plugin_after_100 101 = Undefined /\
  @Session.step Demo.ser (@Session.on_accept Demo.ser Session.new_session)
    (Session.read_done Demo.genesis_chain Demo.plugin_after_100 (get_block_request_v0 101))
  = Undefined.
Proof. repeat split. Qed.

(** ** The trace buffer *)

Section TraceBuffer.
Import Plugin.

Lemma on_applied_with_receipt p r my :
  receipt p = Some r ->
  on_applied_transaction p my = set_traces (<[id p := p]> (traces my)) my.
Proof. unfold on_applied_transaction. now intros ->. Qed.

Lemma on_applied_without_receipt p my :
  receipt p = None -> on_applied_transaction p my = my.
Proof. unfold on_applied_transaction. now intros ->. Qed.

(** C10: of two applied transactions with receipts and the same id, the
    buffer keeps the later trace only: after the first the id maps to the
    first trace, after the second (whatever was applied in between) it
    maps to the second, and applying both in a row leaves the very buffer
    that applying the second alone leaves. *)
Theorem later_trace_replaces_earlier (my : state_history_plugin_impl)
    (p1 p2 : transaction_trace) (r1 r2 : bytes) (between : list transaction_trace) :
  receipt p1 = Some r1 ->
  receipt p2 = Some r2 ->
  id p1 = id p2 ->
  traces (on_applied_transaction p1 my) !! id p1 = Some p1 /\
  traces (on_applied_transaction p2 (apply_all between (on_applied_transaction p1 my)))
    !! id p1 = Some p2 /\
  on_applied_transaction p2 (on_applied_transaction p1 my) = on_applied_transaction p2 my.
Proof.
  intros H1 H2 Hid. repeat split.
  - rewrite (on_applied_with_receipt p1 r1) by assumption. cbn [traces set_traces].
    apply lookup_insert_eq.
  - rewrite (on_applied_with_receipt p2 r2) by assumption. cbn [traces set_traces].
    rewrite Hid. apply lookup_insert_eq.
  - rewrite (on_applied_with_receipt p2 r2), (on_applied_with_receipt p1 r1) by assumption.
    rewrite (on_applied_with_receipt p2 r2) by assumption.
    unfold set_traces. cbn [traces block_state_log trace_log chain_state_log].
    rewrite Hid. now rewrite insert_insert_eq.
Qed.

Lemma later_trace_replaces_earlier_witness :
  traces (on_applied_transaction (Demo.trace_of 11 [x02])
            (apply_all [Demo.trace_of 12 [x03]]
               (on_applied_transaction (Demo.trace_of 11 [x01]) initial_plugin)))
    !! 11%N = Some (Demo.trace_of 11 [x02]).
Proof.
  apply (later_trace_replaces_earlier initial_plugin
           (Demo.trace_of 11 [x01]) (Demo.trace_of 11 [x02]) [x01] [x01]
           [Demo.trace_of 12 [x03]]).
  - reflexivity.
  - reflexivity.
  - reflexivity.
Defined.

End TraceBuffer.

(** ** Accepted blocks *)

Section Ingestion.
Context {ser : Serialization}.
Import Plugin.

Lemma guarded_payload (bin : bytes) :
  Z.of_nat (length bin) <= 2 ^ 32 - 1 ->
  Wire.le32 (Wire.to_uint32 (Z.of_nat (length bin)))
    ++ (if bool_decide (bin = []) then [] else bin) = sized_payload bin.
Proof.
  intros Hle. unfold sized_payload.
  rewrite WireFacts.to_uint32_small by lia.
  destruct bin; reflexivity.
Qed.

Lemma store_traces_unfold bs my :
  store_traces bs my =
    if Z.of_nat (length (block_traces_bin bs my)) <=? 2 ^ 32 - 1 then
      match write_entry (trace_log my) (sized_header bs (block_traces_bin bs my))
              (previous (block bs)) (sized_payload (block_traces_bin bs my)) with
      | Ok log => Returns tt (set_trace_log log (set_traces ∅ my))
      | Throw e => Throws e (set_traces ∅ my)
      | Undefined => Crashes
      end
    else Throws (plugin_exception "traces is too big") (set_traces ∅ my).
Proof.
  unfold store_traces, block_traces_bin.
  cbn [traces set_traces trace_log].
  set (bin := pack_traces _).
  rewrite WireFacts.fits_uint32 by lia.
  destruct (Z.leb_spec (Z.of_nat (length bin)) (2 ^ 32 - 1)) as [Hle | Hgt]; [|reflexivity].
  now rewrite guarded_payload.
Qed.

Lemma store_chain_state_unfold chain bs my deltas :
  chain_state_deltas chain (begin_block (chain_state_log my) =? end_block (chain_state_log my))
    = Ok deltas ->
  store_chain_state chain bs my =
    if Z.of_nat (length (pack_deltas deltas)) <=? 2 ^ 32 - 1 then
      match write_entry (chain_state_log my) (sized_header bs (pack_deltas deltas))
              (previous (block bs)) (sized_payload (pack_deltas deltas)) with
      | Ok log => Returns tt (set_chain_state_log log my)
      | Throw e => Throws e my
      | Undefined => Crashes
      end
    else Throws (plugin_exception "deltas is too big") my.
Proof.
  intros Hd. unfold store_chain_state. rewrite Hd.
  set (bin := pack_deltas _).
  rewrite WireFacts.fits_uint32 by lia.
  destruct (Z.leb_spec (Z.of_nat (length bin)) (2 ^ 32 - 1)) as [Hle | Hgt]; [|reflexivity].
  now rewrite guarded_payload.
Qed.

(** C8: the size assertions.  A serialised trace vector, or a serialised
    delta vector, of more than [2^32 - 1] bytes makes the function throw
    with the log it was about to write untouched; for any size up to
    [2^32 - 1] the assertion passes and the entry, the u32 size followed
    by the bytes, goes to [write_entry]. *)
Theorem size_assertions (chain : controller) (bs : block_state)
    (my : state_history_plugin_impl) (deltas : list table_delta) :
  chain_state_deltas chain (begin_block (chain_state_log my) =? end_block (chain_state_log my))
    = Ok deltas ->
  (store_traces bs my =
     if Z.of_nat (length (block_traces_bin bs my)) <=? 2 ^ 32 - 1 then
       match write_entry (trace_log my) (sized_header bs (block_traces_bin bs my))
               (previous (block bs)) (sized_payload (block_traces_bin bs my)) with
       | Ok log => Returns tt (set_trace_log log (set_traces ∅ my))
       | Throw e => Throws e (set_traces ∅ my)
       | Undefined => Crashes
       end
     else Throws (plugin_exception "traces is too big") (set_traces ∅ my)) /\
  trace_log (set_traces ∅ my) = trace_log my /\
  (store_chain_state chain bs my =
     if Z.of_nat (length (pack_deltas deltas)) <=? 2 ^ 32 - 1 then
       match write_entry (chain_state_log my) (sized_header bs (pack_deltas deltas))
               (previous (block bs)) (sized_payload (pack_deltas deltas)) with
       | Ok log => Returns tt (set_chain_state_log log my)
       | Throw e => Throws e my
       | Undefined => Crashes
       end
     else Throws (plugin_exception "deltas is too big") my).
Proof.
  intros Hd. split; [|split].
  - apply store_traces_unfold.
  - reflexivity.
  - now apply store_chain_state_unfold.
Qed.

Lemma store_traces_clears bs my :
  match store_traces bs my with
  | Returns _ my' | Throws _ my' => traces my' = ∅
  | Crashes => True
  end.
Proof.
  rewrite store_traces_unfold.
  destruct (_ <=? _); [|reflexivity].
  destruct (write_entry _ _ _ _); [reflexivity | reflexivity | exact I].
Qed.

Lemma store_chain_state_keeps_traces chain bs my :
  match store_chain_state chain bs my with
  | Returns _ my' | Throws _ my' => traces my' = traces my
  | Crashes => True
  end.
Proof.
  unfold store_chain_state.
  destruct (chain_state_deltas _ _); [| reflexivity | exact I].
  destruct (_ =? _); [|reflexivity].
  destruct (write_entry _ _ _ _); [reflexivity | reflexivity | exact I].
Qed.

Lemma on_accepted_block_unfold chain bs my :
  on_accepted_block chain bs my =
    match store_traces bs my with
    | Returns _ my1 => store_chain_state chain bs my1
    | Throws e my1 => Throws e my1
    | Crashes => Crashes
    end.
Proof. reflexivity. Qed.

(** However [on_accepted_block] ends, short of undefined behaviour, the
    buffer has been cleared. *)
Lemma on_accepted_block_clears chain bs my :
  match on_accepted_block chain bs my with
  | Returns _ my' | Throws _ my' => traces my' = ∅
  | Crashes => True
  end.
Proof.
  rewrite on_accepted_block_unfold.
  pose proof (store_traces_clears bs my) as H1.
  destruct (store_traces bs my) as [[] my1 | e my1 |]; [| assumption | exact I].
  pose proof (store_chain_state_keeps_traces chain bs my1) as H2.
  destruct (store_chain_state chain bs my1); [congruence | congruence | exact I].
Qed.

(** C4 (T1, P4): when [on_accepted_block] returns, the trace buffer is
    empty, whatever it held before. *)
Theorem trace_buffer_empty_after_block (chain : controller) (bs : block_state)
    (my my' : state_history_plugin_impl) (u : unit) :
  on_accepted_block chain bs my = Returns u my' -> traces my' = ∅.
Proof.
  intros H. pose proof (on_accepted_block_clears chain bs my) as Hc.
  now rewrite H in Hc.
Qed.

End Ingestion.

Lemma size_assertions_witness :
  @Plugin.store_traces Demo.ser Demo.block_100 Demo.plugin_before_100
  = Returns tt (set_trace_log
                  {| first_block := 100;
                     entries := [ {| entry_header :=
                                       {| block_num := 100; block_id := 7; payload_size := 6 |};
                                     entry_payload := Wire.le32 2 ++ [x74; x31] |} ] |}
                  (set_traces ∅ Demo.plugin_before_100)).
Proof.
  pose proof (@size_assertions Demo.ser Demo.genesis_chain Demo.block_100
                Demo.plugin_before_100
                [ {| name := "account"; rows := [(false, [x61])] |} ] eq_refl) as H.
  exact (proj1 H).
Defined.

Lemma trace_buffer_empty_after_block_witness :
  traces Demo.plugin_before_100 !! 11%N = Some (Demo.trace_of 11 [x74; x31]) /\
  traces Demo.plugin_after_100 = ∅.
Proof.
  split.
  - reflexivity.
  - apply (@trace_buffer_empty_after_block Demo.ser Demo.genesis_chain Demo.block_100
             Demo.plugin_before_100 Demo.plugin_after_100 tt).
    reflexivity.
Defined.

(** ** The deltas of a block *)

Section Deltas.
Context {ser : Serialization}.
Import Plugin.

Lemma ofold_flat_map {A B : Type} (f : list B -> A -> outcome (list B)) (g : A -> list B)
    (xs : list A) :
  (forall acc x, In x xs -> f acc x = Ok (acc ++ g x)) ->
  forall acc, ofold f acc xs = Ok (acc ++ flat_map g xs).
Proof.
  induction xs as [|x xs IH]; intros Hf acc; cbn [ofold flat_map].
  - now rewrite app_nil_r.
  - rewrite Hf by (now left). cbn [obind].
    rewrite IH by (intros; apply Hf; now right).
    now rewrite <- app_assoc.
Qed.

Lemma ofold_map {A B : Type} (f : list B -> A -> outcome (list B)) (h : A -> B)
    (xs : list A) :
  (forall acc x, In x xs -> f acc x = Ok (acc ++ [h x])) ->
  forall acc, ofold f acc xs = Ok (acc ++ map h xs).
Proof.
  intros Hf acc. rewrite (ofold_flat_map f (fun x => [h x])) by assumption.
  reflexivity.
Qed.

Lemma index_get_live index oid row :
  index_find index oid = Some row -> index_get index oid = Ok row.
Proof. unfold index_get. now intros ->. Qed.

Lemma emplace_row_ok pack flag row rows data :
  pack row = Ok data -> emplace_row pack flag row rows = Ok (rows ++ [(flag, data)]).
Proof. unfold emplace_row. now intros ->. Qed.

Lemma process_table_fresh name index pack data deltas :
  (forall row, In row (indices index) -> pack row = Ok (data row)) ->
  process_table true name index pack deltas = Ok (deltas ++ fresh_delta name data index).
Proof.
  intros Hpack. unfold process_table, fresh_delta.
  destruct (indices index) as [|row0 more] eqn:Hrows.
  - cbn. now rewrite app_nil_r.
  - rewrite bool_decide_eq_false_2 by discriminate.
    rewrite (ofold_map _ (fun row => (bool_of_id (row_id row), data row))).
    + reflexivity.
    + intros acc row Hin. apply emplace_row_ok. now apply Hpack.
Qed.

Lemma process_table_undo name index pack live data deltas undo :
  last (stack index) = Some undo ->
  (forall old, In old (old_values undo) -> index_find index (fst old) = Some (live (fst old))) ->
  (forall oid, In oid (new_ids undo) -> index_find index oid = Some (live oid)) ->
  (forall row, In row (undo_rows live undo) -> pack row = Ok (data row)) ->
  process_table false name index pack deltas = Ok (deltas ++ undo_delta name live data index).
Proof.
  intros Htop Hold Hnew Hpack. unfold process_table, undo_delta. rewrite Htop.
  fold (undo_is_empty undo). destruct (undo_is_empty undo).
  - now rewrite app_nil_r.
  - rewrite (ofold_map _ (fun old => (true, data (live (fst old))))); cycle 1.
    { intros acc old Hin. rewrite (index_get_live _ _ _ (Hold old Hin)). cbn [obind].
      apply emplace_row_ok, Hpack. unfold undo_rows.
      apply in_or_app. left. now apply (in_map (fun old => live (fst old))). }
    cbn [obind].
    rewrite (ofold_map _ (fun oid => (true, data (live oid)))); cycle 1.
    { intros acc oid Hin. rewrite (index_get_live _ _ _ (Hnew oid Hin)). cbn [obind].
      apply emplace_row_ok, Hpack. unfold undo_rows.
      apply in_or_app. right. apply in_or_app. left. now apply in_map. }
    cbn [obind].
    rewrite (ofold_map _ (fun old => (false, data (snd old)))); cycle 1.
    { intros acc old Hin. apply emplace_row_ok, Hpack. unfold undo_rows.
      apply in_or_app. right. apply in_or_app. right. now apply in_map. }
    cbn [obind]. rewrite app_nil_l, <- app_assoc. reflexivity.
Qed.

Lemma process_table_no_session name index pack deltas :
  last (stack index) = None -> process_table false name index pack deltas = Ok deltas.
Proof. intros H. unfold process_table. now rewrite H. Qed.

End Deltas.

Section ChainState.
Context {ser : Serialization}.
Import Plugin.

Lemma packer_of_ok chain removed tid pass row :
  (snd pass = contract_scoped ->
   get_table_id (db chain contract_table) removed (t_id row) = Ok (tid (t_id row))) ->
  packer_of chain removed (snd pass) (fst pass) row = Ok (row_data tid pass row).
Proof.
  unfold packer_of, row_data. destruct (snd pass); intros Htid.
  - reflexivity.
  - unfold pack_contract_row. now rewrite Htid.
Qed.

(** The deltas of a fresh log: one per table that has rows, in the order
    of [table_passes], each row flagged with its object id as a [bool]. *)
Lemma deltas_of_fresh_log chain top tid :
  last (stack (db chain contract_table)) = Some top ->
  (forall pass row,
     In pass table_passes -> snd pass = contract_scoped ->
     In row (indices (db chain (fst pass))) ->
     get_table_id (db chain contract_table) (collect_removed_table_id (removed_values top))
       (t_id row) = Ok (tid (t_id row))) ->
  chain_state_deltas chain true =
    Ok (flat_map (fun pass => fresh_delta (table_tag (fst pass)) (row_data tid pass)
                                (db chain (fst pass))) table_passes).
Proof.
  intros Htop Htid. unfold chain_state_deltas. rewrite Htop.
  rewrite (ofold_flat_map _
             (fun pass => fresh_delta (table_tag (fst pass)) (row_data tid pass)
                            (db chain (fst pass)))); [reflexivity|].
  intros acc pass Hin. apply process_table_fresh.
  intros row Hrow. apply packer_of_ok. intros Hk. now apply (Htid pass).
Qed.

(** C3: on a log that is not empty, each table contributes no delta when
    it has no undo frame or its top frame has no modified, new or
    removed rows, and otherwise exactly one delta whose rows are the live
    rows of the ids of [old_values] with [true], then the live rows of
    [new_ids] with [true], then the captured values of [removed_values]
    with [false]; the deltas come in the order of the tables. *)
Theorem deltas_of_undo_frames (chain : controller) (my : state_history_plugin_impl)
    (top : undo_state) (live : table -> Z -> chain_row) (tid : Z -> chain_row) :
  begin_block (chain_state_log my) <> end_block (chain_state_log my) ->
  last (stack (db chain contract_table)) = Some top ->
  (forall t undo old,
     last (stack (db chain t)) = Some undo -> In old (old_values undo) ->
     index_find (db chain t) (fst old) = Some (live t (fst old))) ->
  (forall t undo oid,
     last (stack (db chain t)) = Some undo -> In oid (new_ids undo) ->
     index_find (db chain t) oid = Some (live t oid)) ->
  (forall pass undo row,
     In pass table_passes -> snd pass = contract_scoped ->
     last (stack (db chain (fst pass))) = Some undo ->
     In row (undo_rows (live (fst pass)) undo) ->
     get_table_id (db chain contract_table) (collect_removed_table_id (removed_values top))
       (t_id row) = Ok (tid (t_id row))) ->
  chain_state_deltas chain
    (begin_block (chain_state_log my) =? end_block (chain_state_log my)) =
    Ok (flat_map (fun pass => undo_delta (table_tag (fst pass)) (live (fst pass))
                                (row_data tid pass) (db chain (fst pass))) table_passes).
Proof.
  intros Hne Htop Hold Hnew Htid.
  apply Z.eqb_neq in Hne. rewrite Hne.
  unfold chain_state_deltas. rewrite Htop.
  rewrite (ofold_flat_map _
             (fun pass => undo_delta (table_tag (fst pass)) (live (fst pass))
                            (row_data tid pass) (db chain (fst pass)))); [reflexivity|].
  intros acc pass Hin.
  destruct (last (stack (db chain (fst pass)))) as [undo|] eqn:Hundo.
  - apply (process_table_undo _ _ _ _ _ _ undo); try assumption.
    + intros old. apply Hold. exact Hundo.
    + intros oid. apply Hnew. exact Hundo.
    + intros row Hrow. apply packer_of_ok. intros Hk. now apply (Htid pass undo).
  - rewrite process_table_no_session by assumption.
    unfold undo_delta. rewrite Hundo. now rewrite app_nil_r.
Qed.

End ChainState.

Lemma deltas_of_undo_frames_witness :
  @Plugin.chain_state_deltas Demo.ser Demo.later_chain
    (begin_block (chain_state_log Demo.plugin_after_100)
     =? end_block (chain_state_log Demo.plugin_after_100)) =
  Ok [ {| name := "account";
          rows := [(true, [x62]); (true, [x63]); (false, [x64])] |};
       {| name := "contract_table"; rows := [(false, [x74])] |};
       {| name := "contract_row"; rows := [(false, [x74; x6b])] |} ].
Proof.
  apply (@deltas_of_undo_frames Demo.ser Demo.later_chain Demo.plugin_after_100
           {| old_values := []; removed_values := [(5, Demo.scope_removed)]; new_ids := [] |}
           (fun _ oid => if oid =? 1 then Demo.bob else Demo.carol)
           (fun _ => Demo.scope_removed)).
  - vm_compute. discriminate.
  - reflexivity.
  - intros t undo old Htop Hin.
    destruct t; cbn in Htop; try discriminate; injection Htop as <-; cbn in Hin;
      try contradiction.
    destruct Hin as [<- | []]. reflexivity.
  - intros t undo oid Htop Hin.
    destruct t; cbn in Htop; try discriminate; injection Htop as <-; cbn in Hin;
      try contradiction.
    destruct Hin as [<- | []]. reflexivity.
  - intros pass undo row Hpass Hk Htop Hin.
    cbn in Hpass.
    repeat (destruct Hpass as [<- | Hpass]; [try discriminate Hk; try discriminate Htop |]);
      try contradiction.
    cbn in Htop. injection Htop as <-. cbn in Hin.
    destruct Hin as [<- | []]. reflexivity.
Defined.

(** C2: the first accepted block on an empty chain-state log, with one
    account whose object id is 0.  The account table yields its one delta
    and the delta covers the row, but the row is flagged [false]: the
    fresh branch of [process_table] passes the row's object id where the
    other branch passes [true], and the id 0 converts to [false]. *)
Theorem fresh_snapshot_flags_row_zero_absent :
  begin_block (chain_state_log Demo.plugin_before_100)
    = end_block (chain_state_log Demo.plugin_before_100) /\
  indices (db Demo.genesis_chain account) = [Demo.alice] /\
  row_id Demo.alice = 0 /\
  @Plugin.chain_state_deltas Demo.ser Demo.genesis_chain
    (begin_block (chain_state_log Demo.plugin_before_100)
     =? end_block (chain_state_log Demo.plugin_before_100)) =
  Ok [ {| name := "account"; rows := [(false, row_content Demo.alice)] |} ].
Proof. repeat split. Qed.

(** ** The ranges of the three logs *)

Section Ranges.
Context {ser : Serialization}.
Import Plugin.

Lemma ancestry_range log1 log2 :
  ancestry log1 = ancestry log2 ->
  begin_block log1 = begin_block log2 /\ end_block log1 = end_block log2.
Proof.
  unfold ancestry, begin_block, end_block. intros [= Hb Hids].
  apply (f_equal (@length _)) in Hids. rewrite !length_map in Hids. lia.
Qed.

Lemma fork_point_ancestry es1 es2 prev k :
  map stored_id es1 = map stored_id es2 -> fork_point es1 prev k = fork_point es2 prev k.
Proof.
  intros Hids. induction k as [|k IH]; cbn [fork_point]; [reflexivity|].
  assert (Hk : option_map stored_id (nth_error es1 k) = option_map stored_id (nth_error es2 k))
    by (rewrite <- !nth_error_map; now rewrite Hids).
  destruct (nth_error es1 k) as [e1|], (nth_error es2 k) as [e2|]; cbn in Hk;
    try discriminate; [|assumption].
  injection Hk as Hk. unfold stored_id in Hk. rewrite Hk, IH. reflexivity.
Qed.

(** Two logs that hold the same blocks take the same block the same way. *)
Lemma write_entry_aligned log1 log2 h1 h2 prev p1 p2 :
  ancestry log1 = ancestry log2 ->
  block_num h1 = block_num h2 ->
  block_id h1 = block_id h2 ->
  match write_entry log1 h1 prev p1, write_entry log2 h2 prev p2 with
  | Ok log1', Ok log2' => ancestry log1' = ancestry log2'
  | Throw e1, Throw e2 => e1 = e2
  | _, _ => False
  end.
Proof.
  intros Ha Hn Hi. destruct (ancestry_range _ _ Ha) as [Hb He].
  unfold write_entry. rewrite <- Hb, <- He, <- Hn.
  injection Ha as Hf Hids. rewrite (fork_point_ancestry _ (entries log2)) by assumption.
  destruct (begin_block log1 =? end_block log1).
  { unfold ancestry, stored_id. cbn. now rewrite Hi. }
  destruct (end_block log1 <? block_num h1); [reflexivity|].
  destruct (block_num h1 <? begin_block log1); [reflexivity|].
  destruct (fork_point _ _ _) as [|k].
  - unfold ancestry, stored_id. cbn. now rewrite Hi.
  - unfold ancestry. cbn [first_block entries]. rewrite !map_app, <- !firstn_map.
    rewrite Hf, Hids. unfold stored_id at 2 4. cbn. now rewrite Hi.
Qed.

Lemma fork_point_newest older newest prev :
  stored_id newest = prev ->
  fork_point (older ++ [newest]) prev (S (length older)) = S (length older).
Proof.
  intros Hid. cbn [fork_point].
  rewrite nth_error_app2, Nat.sub_diag by lia. cbn [nth_error].
  unfold stored_id in Hid. rewrite Hid, N.eqb_refl. reflexivity.
Qed.

(** A block that extends the log moves [end_block] one past it; on a log
    that has entries, [begin_block] stays and [end_block] grows by one. *)
Lemma write_entry_extends log bs h p log' :
  extends log bs ->
  block_num h = sb_block_num (block bs) ->
  write_entry log h (previous (block bs)) p = Ok log' ->
  end_block log' = sb_block_num (block bs) + 1 /\
  (entries log <> [] ->
   begin_block log' = begin_block log /\ end_block log' = end_block log + 1).
Proof.
  intros Hext Hn. unfold write_entry, begin_block, end_block.
  destruct Hext as [Hempty | (older & newest & Hes & Hend & Hid)].
  - rewrite Hempty. cbn [length]. rewrite Z.add_0_r, Z.eqb_refl.
    intros [= <-]. cbn. split; [lia | congruence].
  - unfold end_block in Hend. rewrite Hes in *. rewrite length_app in *. cbn [length] in *.
    destruct (Z.eqb_spec (first_block log) (first_block log + Z.of_nat (length older + 1)));
      [lia|].
    destruct (Z.ltb_spec (first_block log + Z.of_nat (length older + 1)) (block_num h)); [lia|].
    destruct (Z.ltb_spec (block_num h) (first_block log)); [lia|].
    replace (Z.to_nat (block_num h - first_block log)) with (S (length older)) by lia.
    rewrite fork_point_newest by assumption.
    rewrite firstn_all2 by (rewrite length_app; cbn; lia).
    intros [= <-]. cbn [first_block entries]. rewrite !length_app. cbn [length].
    split; [lia | intros _; lia].
Qed.

Lemma store_traces_returns bs my u my1 :
  store_traces bs my = Returns u my1 ->
  exists h p log,
    block_num h = sb_block_num (block bs) /\ block_id h = sb_id (block bs) /\
    write_entry (trace_log my) h (previous (block bs)) p = Ok log /\
    my1 = set_trace_log log (set_traces ∅ my).
Proof.
  rewrite store_traces_unfold.
  destruct (_ <=? _); [|discriminate].
  destruct (write_entry _ _ _ _) as [log| |] eqn:Hw; try discriminate.
  intros [= _ <-]. do 3 eexists. repeat split; [| | exact Hw]; reflexivity.
Qed.

Lemma store_chain_state_returns chain bs my u my' :
  store_chain_state chain bs my = Returns u my' ->
  exists h p log,
    block_num h = sb_block_num (block bs) /\ block_id h = sb_id (block bs) /\
    write_entry (chain_state_log my) h (previous (block bs)) p = Ok log /\
    my' = set_chain_state_log log my.
Proof.
  destruct (chain_state_deltas chain
              (begin_block (chain_state_log my) =? end_block (chain_state_log my)))
    as [deltas| |] eqn:Hd.
  - rewrite (store_chain_state_unfold _ _ _ _ Hd).
    destruct (_ <=? _); [|discriminate].
    destruct (write_entry _ _ _ _) as [log| |] eqn:Hw; try discriminate.
    intros [= _ <-]. do 3 eexists. repeat split; [| | exact Hw]; reflexivity.
  - unfold store_chain_state. rewrite Hd. discriminate.
  - unfold store_chain_state. rewrite Hd. discriminate.
Qed.

Lemma on_applied_aligned p my : aligned my -> aligned (on_applied_transaction p my).
Proof. unfold on_applied_transaction. now destruct (receipt p). Qed.

Lemma trace_and_chain_state_aligned_step chain bs my my' u :
  aligned my -> on_accepted_block chain bs my = Returns u my' -> aligned my'.
Proof.
  intros Hal Hrun. rewrite on_accepted_block_unfold in Hrun.
  destruct (store_traces bs my) as [[] my1 | |] eqn:Ht; try discriminate.
  apply store_traces_returns in Ht as (h1 & p1 & log1 & Hn1 & Hi1 & Hw1 & ->).
  apply store_chain_state_returns in Hrun as (h2 & p2 & log2 & Hn2 & Hi2 & Hw2 & ->).
  cbn [chain_state_log set_trace_log set_traces] in Hw2.
  pose proof (write_entry_aligned (trace_log my) (chain_state_log my) h1 h2
                (previous (block bs)) p1 p2 Hal ltac:(congruence) ltac:(congruence)) as Hstep.
  rewrite Hw1, Hw2 in Hstep. exact Hstep.
Qed.

(** [store_block_state] writes nothing. *)
Lemma on_accepted_block_keeps_block_state_log chain bs my :
  match on_accepted_block chain bs my with
  | Returns _ my' | Throws _ my' => block_state_log my' = block_state_log my
  | Crashes => True
  end.
Proof.
  rewrite on_accepted_block_unfold, store_traces_unfold.
  destruct (_ <=? _); [|reflexivity].
  destruct (write_entry _ _ _ _) as [log1| |]; [| reflexivity | exact I].
  unfold store_chain_state.
  destruct (chain_state_deltas _ _); [| reflexivity | exact I].
  destruct (_ =? _); [|reflexivity].
  destruct (write_entry _ _ _ _); [reflexivity | reflexivity | exact I].
Qed.

(** C1, for the two logs the code writes: when the trace log and the
    chain-state log hold the same blocks and [on_accepted_block] returns,
    they hold the same blocks afterwards, hence share [begin_block] and
    [end_block]; and a block that extends the logs leaves [end_block] one
    past its number, which on logs that have entries is an advance by one
    block. *)
Theorem trace_and_chain_state_logs_advance_together (chain : controller) (bs : block_state)
    (my my' : state_history_plugin_impl) (u : unit) :
  aligned my ->
  on_accepted_block chain bs my = Returns u my' ->
  aligned my' /\
  begin_block (trace_log my') = begin_block (chain_state_log my') /\
  end_block (trace_log my') = end_block (chain_state_log my') /\
  (extends (trace_log my) bs ->
   end_block (trace_log my') = sb_block_num (block bs) + 1 /\
   (entries (trace_log my) <> [] ->
    begin_block (trace_log my') = begin_block (trace_log my) /\
    end_block (trace_log my') = end_block (trace_log my) + 1)).
Proof.
  intros Hal Hrun. rewrite on_accepted_block_unfold in Hrun.
  destruct (store_traces bs my) as [[] my1 | |] eqn:Ht; try discriminate.
  apply store_traces_returns in Ht as (h1 & p1 & log1 & Hn1 & Hi1 & Hw1 & ->).
  apply store_chain_state_returns in Hrun as (h2 & p2 & log2 & Hn2 & Hi2 & Hw2 & ->).
  cbn [chain_state_log set_trace_log set_traces] in Hw2.
  pose proof (write_entry_aligned (trace_log my) (chain_state_log my) h1 h2
                (previous (block bs)) p1 p2 Hal ltac:(congruence) ltac:(congruence)) as Hstep.
  rewrite Hw1, Hw2 in Hstep.
  assert (Hal' : aligned (set_chain_state_log log2 (set_trace_log log1 (set_traces ∅ my))))
    by exact Hstep.
  destruct (ancestry_range _ _ Hal') as [Hb He].
  split; [exact Hal'|]. split; [exact Hb|]. split; [exact He|].
  intros Hext. cbn [trace_log set_chain_state_log set_trace_log].
  now apply (write_entry_extends (trace_log my) bs h1 p1 log1).
Qed.

(** From empty logs, every run of accepted blocks that return keeps the
    trace log and the chain-state log together. *)
Lemma aligned_initially : aligned initial_plugin.
Proof. reflexivity. Qed.

(** A run of signals that returns keeps the two logs together. *)
Lemma ingest_aligned evs : forall my my' u,
  aligned my -> ingest evs my = Returns u my' -> aligned my'.
Proof.
  induction evs as [|ev evs IH]; intros my my' u Hal Hrun; cbn [ingest] in Hrun.
  - now injection Hrun as _ <-.
  - destruct ev as [p | chain bs].
    + apply (IH _ _ _ (on_applied_aligned p my Hal) Hrun).
    + unfold rbind in Hrun.
      destruct (on_accepted_block chain bs my) as [[] my1 | |] eqn:Hblock; try discriminate.
      apply (IH my1 my' u); [|assumption].
      now apply (trace_and_chain_state_aligned_step chain bs my my1 tt).
Qed.

(** An entry written for a block that extends the log is read back by
    [get_data] under the block's number. *)
Lemma written_entry_read_back log bs bin log' res :
  extends log bs ->
  Z.of_nat (length bin) <= 2 ^ 32 - 1 ->
  write_entry log (sized_header bs bin) (previous (block bs)) (sized_payload bin) = Ok log' ->
  get_data log' (sb_block_num (block bs)) res = Ok (Some bin).
Proof.
  intros Hext Hsize Hw.
  assert (Hentry : get_entry log' (sb_block_num (block bs))
                   = Ok (sized_header bs bin, sized_payload bin ++ [])).
  { revert Hw. unfold write_entry, get_entry, begin_block, end_block.
    destruct Hext as [Hempty | (older & newest & Hes & Hend & Hid)].
    - rewrite Hempty. cbn [length]. rewrite Z.add_0_r, Z.eqb_refl.
      intros [= <-]. cbn [first_block entries length block_num sized_header].
      destruct (Z.ltb_spec (sb_block_num (block bs)) (sb_block_num (block bs))); [lia|].
      destruct (Z.leb_spec (sb_block_num (block bs) + Z.of_nat 1) (sb_block_num (block bs)));
        [lia|].
      cbn [orb]. rewrite Z.sub_diag. reflexivity.
    - unfold end_block in Hend. rewrite Hes in *. rewrite length_app in *.
      cbn [length block_num sized_header] in *.
      destruct (Z.eqb_spec (first_block log) (first_block log + Z.of_nat (length older + 1)));
        [lia|].
      destruct (Z.ltb_spec (first_block log + Z.of_nat (length older + 1))
                  (sb_block_num (block bs))); [lia|].
      destruct (Z.ltb_spec (sb_block_num (block bs)) (first_block log)); [lia|].
      replace (Z.to_nat (sb_block_num (block bs) - first_block log))
        with (S (length older)) by lia.
      rewrite fork_point_newest by assumption.
      rewrite firstn_all2 by (rewrite length_app; cbn; lia).
      intros [= <-]. cbn [first_block entries]. rewrite !length_app. cbn [length].
      destruct (Z.ltb_spec (sb_block_num (block bs)) (first_block log)); [lia|].
      destruct (Z.leb_spec (first_block log + Z.of_nat (length older + 1 + 1))
                  (sb_block_num (block bs))); [lia|].
      cbn [orb].
      replace (Z.to_nat (sb_block_num (block bs) - first_block log))
        with (length (older ++ [newest])) by (rewrite length_app; cbn; lia).
      rewrite drop_app_length. reflexivity. }
  assert (Hrange : begin_block log' <= sb_block_num (block bs) < end_block log').
  { unfold get_entry in Hentry.
    destruct (Z.ltb_spec (sb_block_num (block bs)) (begin_block log')); [discriminate|].
    destruct (Z.leb_spec (end_block log') (sb_block_num (block bs))); [discriminate|]. lia. }
  apply (get_data_inside log' _ res (sized_header bs bin) (Z.of_nat (length bin)) bin []);
    [assumption | exact Hentry | lia | now rewrite Nat2Z.id].
Qed.

End Ranges.

Lemma trace_and_chain_state_logs_advance_together_witness :
  end_block (trace_log Demo.plugin_after_100) = end_block (chain_state_log Demo.plugin_after_100) /\
  end_block (trace_log Demo.plugin_after_100) = 101.
Proof.
  destruct (@trace_and_chain_state_logs_advance_together Demo.ser Demo.genesis_chain
              Demo.block_100 Demo.plugin_before_100 Demo.plugin_after_100 tt)
    as (_ & _ & He & Hext).
  - reflexivity.
  - reflexivity.
  - split; [exact He|]. apply Hext. left. reflexivity.
Defined.

(** C1, as stated, fails on the first accepted block: the trace log and the
    chain-state log then cover block 100, the block-state log covers
    nothing. *)
Lemma block_state_log_stays_empty :
  @Plugin.on_accepted_block Demo.ser Demo.genesis_chain Demo.block_100 Demo.plugin_before_100
    = Returns tt Demo.plugin_after_100 /\
  end_block (block_state_log Demo.plugin_after_100) = 0 /\
  end_block (trace_log Demo.plugin_after_100) = 101 /\
  end_block (chain_state_log Demo.plugin_after_100) = 101 /\
  ~ three_logs_share_range Demo.plugin_after_100.
Proof.
  repeat split.
  intros (_ & _ & He & _). vm_compute in He. discriminate.
Qed.

(** ** The send queue of a session *)

Section SendQueue.
Context {ser : Serialization}.
Import Session.

Lemma queue_inv_close s frames : queue_inv s frames -> queue_inv (close s) frames.
Proof. destruct s. exact (fun H => H). Qed.

Lemma queue_inv_on_accept : queue_inv (on_accept new_session) [state_history_plugin_abi].
Proof.
  split; [reflexivity|]. left. split; [reflexivity|].
  exists false, state_history_plugin_abi, []. split; reflexivity.
Qed.

Lemma queue_inv_send_frame frame s frames :
  queue_inv s frames -> queue_inv (send_frame frame s) (frames ++ [frame]).
Proof.
  destruct s as [sg sa queue o inflight out]. unfold queue_inv, send_frame, send.
  cbn [sending sentAbi send_queue is_open writes_in_flight written].
  intros [Hframes [(-> & flag & front & rest & -> & ->) | (-> & -> & ->)]]; cbn [orb app].
  - cbn [written send_queue]. split.
    + rewrite <- Hframes. now rewrite <- app_assoc.
    + left. split; [reflexivity|]. exists flag, front, (rest ++ [frame]).
      split; reflexivity.
  - rewrite bool_decide_eq_false_2 by discriminate.
    cbn [sending written send_queue writes_in_flight hd app]. split.
    + rewrite <- Hframes. now rewrite app_nil_r.
    + left. split; [reflexivity|]. exists sa, frame, []. split; reflexivity.
Qed.

Lemma send_frame_open frame s : is_open (send_frame frame s) = is_open s.
Proof. unfold send_frame, send. cbn [sending send_queue]. now destruct (_ || _). Qed.

(** A completed write: the head leaves the queue, and the next write, if
    any, is for the new head. *)
Lemma queue_inv_write_done s frames :
  queue_inv s frames ->
  exists s', step s write_done = Ok s' /\ queue_inv s' frames /\ is_open s' = is_open s /\
             (send_queue s' = tl (send_queue s)).
Proof.
  destruct s as [sg sa queue o inflight out]. unfold queue_inv, step, on_write, send.
  cbn [sending sentAbi send_queue is_open writes_in_flight written].
  intros [Hframes [(-> & flag & front & rest & -> & ->) | (-> & -> & ->)]].
  - eexists. split; [reflexivity|]. cbn [orb tl].
    destruct rest as [|next rest].
    + rewrite bool_decide_eq_true_2 by reflexivity.
      cbn [sending written send_queue writes_in_flight is_open].
      repeat split.
      * rewrite map_app. cbn [map snd]. rewrite <- Hframes. now rewrite <- app_assoc.
      * right. repeat split.
    + rewrite bool_decide_eq_false_2 by discriminate.
      cbn [sending written send_queue writes_in_flight is_open hd app].
      repeat split.
      * rewrite map_app. cbn [map snd]. rewrite <- Hframes. now rewrite <- app_assoc.
      * left. split; [reflexivity|]. exists sa, next, rest. split; reflexivity.
  - eexists. split; [reflexivity|]. cbn [send_queue is_open tl written writes_in_flight sending].
    repeat split; [assumption|]. right. repeat split.
Qed.

Lemma queue_inv_run evs : forall s frames s',
  queue_inv s frames ->
  run s evs = Ok s' ->
  queue_inv s' (frames ++ responses evs).
Proof.
  induction evs as [|ev evs IH]; intros s frames s' Hinv Hrun.
  - cbn in Hrun. injection Hrun as <-. cbn [responses]. now rewrite app_nil_r.
  - unfold run in Hrun. cbn [ofold] in Hrun.
    destruct ev as [chain my req | | ]; cbn [responses].
    + cbn [step] in Hrun. unfold on_read in Hrun.
      destruct (Plugin.visit chain my req) as [r| |]; cbn [obind] in Hrun.
      * apply (IH _ (frames ++ [pack_state_result r])) in Hrun.
        -- now rewrite <- app_assoc in Hrun.
        -- now apply queue_inv_send_frame.
      * apply (IH _ frames) in Hrun; [exact Hrun | now apply queue_inv_close].
      * discriminate.
    + destruct (queue_inv_write_done s frames Hinv) as (s1 & Hstep & Hinv1 & _ & _).
      rewrite Hstep in Hrun. cbn [obind] in Hrun.
      apply (IH _ frames) in Hrun; assumption.
    + cbn [step obind] in Hrun.
      apply (IH _ frames) in Hrun; [exact Hrun | now apply queue_inv_close].
Qed.

(** With no more requests, as many write completions as there are frames
    in the queue write all of them out. *)
Lemma queue_drains n : forall s frames,
  queue_inv s frames ->
  length (send_queue s) = n ->
  exists s', run s (repeat write_done n) = Ok s' /\
             map snd (written s') = frames /\ send_queue s' = [].
Proof.
  induction n as [|n IH]; intros s frames Hinv Hlen.
  - exists s. destruct (send_queue s) eqn:Hq; [|discriminate].
    destruct Hinv as [Hframes _]. rewrite Hq, app_nil_r in Hframes. auto.
  - destruct (queue_inv_write_done s frames Hinv) as (s1 & Hstep & Hinv1 & _ & Hq1).
    destruct (IH s1 frames Hinv1) as (s' & Hrun & Hw & Hq).
    + rewrite Hq1. destruct (send_queue s); [discriminate|]. cbn in *. lia.
    + exists s'. unfold run in *. cbn [repeat ofold]. rewrite Hstep. auto.
Qed.

(** C7 (S1, P6): after any completions on an accepted session, failed
    ones included, the frames written out, in order, followed by the queue
    are the ABI followed by the responses in the order their requests were
    read; at most one write is in flight, and it is for the head of the
    queue; and while the session is open, one write completion per queued
    frame writes out all of them, in that order. *)
Theorem responses_in_request_order (evs : list event) (s : session) :
  run (on_accept new_session) evs = Ok s ->
  map snd (written s) ++ send_queue s = state_history_plugin_abi :: responses evs /\
  (length (writes_in_flight s) <= 1)%nat /\
  (forall w, In w (writes_in_flight s) -> exists rest, send_queue s = snd w :: rest) /\
  (is_open s = true ->
   exists s', run s (repeat write_done (length (send_queue s))) = Ok s' /\
              map snd (written s') = state_history_plugin_abi :: responses evs /\
              send_queue s' = []).
Proof.
  intros Hrun.
  pose proof (queue_inv_run evs _ _ s queue_inv_on_accept Hrun) as Hinv.
  cbn [app] in Hinv.
  split; [exact (proj1 Hinv)|]. split; [|split].
  - destruct Hinv as [_ [(_ & flag & front & rest & _ & ->) | (_ & _ & ->)]]; cbn; lia.
  - intros w Hw.
    destruct Hinv as [_ [(_ & flag & front & rest & Hq & Hfl) | (_ & _ & Hfl)]];
      rewrite Hfl in Hw; cbn in Hw; [|contradiction].
    destruct Hw as [<- | []]. exists rest. exact Hq.
  - intros _. now apply queue_drains.
Qed.

End SendQueue.

Lemma responses_in_request_order_witness :
  exists s,
    @Session.run Demo.ser (@Session.on_accept Demo.ser Session.new_session)
      [ Session.read_done Demo.genesis_chain Demo.plugin_after_100 get_status_request_v0;
        Session.write_done;
        Session.failed;
        Session.read_done Demo.genesis_chain Demo.plugin_after_100 (get_block_request_v0 100) ]
    = Ok s /\
    map snd (Session.written s) ++ Session.send_queue s =
      @state_history_plugin_abi Demo.ser
      :: @Session.responses Demo.ser
           [ Session.read_done Demo.genesis_chain Demo.plugin_after_100 get_status_request_v0;
             Session.write_done;
             Session.failed;
             Session.read_done Demo.genesis_chain Demo.plugin_after_100
               (get_block_request_v0 100) ].
Proof.
  eexists. split.
  - reflexivity.
  - apply (@responses_in_request_order Demo.ser
             [ Session.read_done Demo.genesis_chain Demo.plugin_after_100 get_status_request_v0;
               Session.write_done;
               Session.failed;
               Session.read_done Demo.genesis_chain Demo.plugin_after_100
                 (get_block_request_v0 100) ]).
    reflexivity.
Defined.

Lemma get_block_log_fields_witness :
  exists r,
    @Plugin.handle_get_block Demo.ser Demo.genesis_chain Demo.plugin_after_100 100 = Ok r /\
    result_block_state r = None /\
    result_traces r = Some [x74; x31] /\
    @Plugin.get_data Demo.ser (trace_log Demo.plugin_after_100) 100 None = Ok (Some [x74; x31]).
Proof.
  destruct (@get_block_log_fields Demo.ser Demo.genesis_chain Demo.plugin_after_100 100)
    as (Hfields & Hread & Hvalue).
  eexists. split; [reflexivity|]. split; [|split].
  - reflexivity.
  - refine (proj1 (proj2 (Hvalue _ {| block_num := 100; block_id := 7; payload_size := 6 |}
                            2 [x74; x31] [] eq_refl _ eq_refl)) _ eq_refl).
    + lia.
    + change (100 <= 100 < 101). lia.
  - apply (Hread (trace_log Demo.plugin_after_100)
             {| block_num := 100; block_id := 7; payload_size := 6 |} 2 [x74; x31] []).
    + change (100 <= 100 < 101). lia.
    + reflexivity.
    + lia.
    + reflexivity.
Defined.

Lemma get_data_zero_size_witness :
  @Plugin.get_data Demo.ser (trace_log Demo.plugin_after_101) 101 None = Ok (Some []) /\
  @Plugin.get_data Demo.ser (trace_log Demo.plugin_after_101) 102 None = Ok None.
Proof.
  destruct (@get_data_zero_size Demo.ser (trace_log Demo.plugin_after_101) 101 None
              {| block_num := 101; block_id := 8; payload_size := 4 |} [])
    as (Hpresent & _ & Habsent).
  - change (100 <= 101 < 102). lia.
  - reflexivity.
  - split; [exact Hpresent|]. apply Habsent. change (102 < 100 \/ 102 <= 102). lia.
Defined.

(** * Further properties *)

(** ** The trace buffer between blocks *)

Section BufferedTraces.
Context {ser : Serialization}.
Import Plugin.

Lemma buffer_keyed_empty : buffer_keyed ∅.
Proof. intros k t H. now rewrite lookup_empty in H. Qed.

Lemma buffer_keyed_applied p my :
  buffer_keyed (traces my) -> buffer_keyed (traces (on_applied_transaction p my)).
Proof.
  intros Hwf. unfold on_applied_transaction.
  destruct (receipt p) as [r|] eqn:Hr; [|assumption].
  cbn [traces set_traces]. intros k t. rewrite lookup_insert.
  destruct (decide (id p = k)) as [<- | Hne].
  - intros [= <-]. split; [reflexivity | rewrite Hr; eauto].
  - apply Hwf.
Qed.

(** X1: whatever signals the plugin has served since it started, every
    trace in the buffer is stored under its own transaction id and has a
    receipt. *)
Theorem buffered_traces_are_keyed_by_id (evs : list chain_event)
    (my : state_history_plugin_impl) (u : unit) :
  ingest evs initial_plugin = Returns u my ->
  forall k t, traces my !! k = Some t -> id t = k /\ is_Some (receipt t).
Proof.
  assert (Hgen : forall evs my0 my1 u1,
             buffer_keyed (traces my0) -> ingest evs my0 = Returns u1 my1 ->
             buffer_keyed (traces my1)).
  { clear. induction evs as [|ev evs' IH]; intros my0 my1 u1 Hwf Hrun; cbn [ingest] in Hrun.
    - now injection Hrun as _ <-.
    - destruct ev as [p | chain bs].
      + apply (IH _ _ _ (buffer_keyed_applied p my0 Hwf) Hrun).
      + unfold rbind in Hrun.
        pose proof (on_accepted_block_clears chain bs my0) as Hclear.
        destruct (on_accepted_block chain bs my0) as [[] my2 | |]; try discriminate.
        apply (IH my2 my1 u1); [|assumption]. rewrite Hclear. apply buffer_keyed_empty. }
  intros Hrun. apply (Hgen evs initial_plugin my u); [|assumption].
  apply buffer_keyed_empty.
Qed.

Lemma collect_traces_ids buffer ids :
  buffer_keyed buffer ->
  map id (collect_traces buffer ids)
  = List.filter (fun k => bool_decide (is_Some (buffer !! k))) ids.
Proof.
  intros Hwf. induction ids as [|k ids IH]; cbn [collect_traces List.filter map];
    [reflexivity|].
  destruct (buffer !! k) as [t|] eqn:Hk.
  - destruct (Hwf k t Hk) as [Hid [r Hr]]. rewrite Hr.
    rewrite bool_decide_eq_true_2 by eauto. cbn [map]. now rewrite Hid, IH.
  - rewrite bool_decide_eq_false_2 by (intros [? ?]; discriminate). exact IH.
Qed.

(** X2: the traces [store_traces] serialises for a block are those of the
    block's transactions that are in the buffer, in block order; a
    transaction without a buffered trace is skipped, it does not fail the
    block, and nothing else from the buffer is included. *)
Theorem stored_traces_follow_block_order (buffer : gmap N transaction_trace) (ids : list N) :
  buffer_keyed buffer ->
  map id (collect_traces buffer ids)
    = List.filter (fun k => bool_decide (is_Some (buffer !! k))) ids /\
  Forall (fun t => buffer !! id t = Some t) (collect_traces buffer ids) /\
  (length (collect_traces buffer ids) <= length ids)%nat.
Proof.
  intros Hwf. split; [now apply collect_traces_ids|]. split.
  - induction ids as [|k ids IH]; cbn [collect_traces]; [constructor|].
    destruct (buffer !! k) as [t|] eqn:Hk; [|exact IH].
    destruct (receipt t); [|exact IH].
    constructor; [|exact IH]. destruct (Hwf k t Hk) as [-> _]. exact Hk.
  - induction ids as [|k ids IH]; cbn [collect_traces length]; [lia|].
    destruct (buffer !! k) as [t|]; [destruct (receipt t)|]; cbn [length]; lia.
Qed.

Lemma apply_all_app ps qs my :
  apply_all (ps ++ qs) my = apply_all qs (apply_all ps my).
Proof. unfold apply_all. apply fold_left_app. Qed.

Lemma apply_all_not_stored k ps : forall my,
  Forall (fun p => stored_under k p = false) ps ->
  traces (apply_all ps my) !! k = traces my !! k.
Proof.
  induction ps as [|p ps IH]; intros my Hps; [reflexivity|].
  inversion Hps as [|? ? Hp Hps']; subst.
  change (apply_all (p :: ps) my) with (apply_all ps (on_applied_transaction p my)).
  rewrite IH by assumption.
  unfold on_applied_transaction, stored_under in *.
  destruct (receipt p); [|reflexivity].
  cbn [traces set_traces]. apply N.eqb_neq in Hp. now rewrite lookup_insert_ne.
Qed.

(** X3: after any applied transactions the buffer holds, under an id, the
    last applied trace with that id and a receipt: later traces with other
    ids, and later traces with this id but no receipt, do not disturb it;
    and an id under which no trace was stored maps to what it mapped to
    before. *)
Theorem buffer_holds_last_receipted_trace (my : state_history_plugin_impl)
    (before after : list transaction_trace) (p : transaction_trace) (k : N) :
  (stored_under k p = true ->
   Forall (fun q => stored_under k q = false) after ->
   traces (apply_all (before ++ p :: after) my) !! k = Some p) /\
  (Forall (fun q => stored_under k q = false) after ->
   traces (apply_all after my) !! k = traces my !! k).
Proof.
  split.
  - intros Hp Hafter. rewrite apply_all_app.
    change (apply_all (p :: after) (apply_all before my))
      with (apply_all after (on_applied_transaction p (apply_all before my))).
    rewrite apply_all_not_stored by assumption.
    unfold stored_under in Hp. unfold on_applied_transaction.
    destruct (receipt p); [|discriminate].
    apply N.eqb_eq in Hp as <-. cbn [traces set_traces]. apply lookup_insert_eq.
  - apply apply_all_not_stored.
Qed.

End BufferedTraces.

Lemma buffered_traces_are_keyed_by_id_witness :
  id (Demo.trace_of 11 [x74; x31]) = 11%N /\
  is_Some (receipt (Demo.trace_of 11 [x74; x31])).
Proof.
  apply (@buffered_traces_are_keyed_by_id Demo.ser
           [applied_transaction (Demo.trace_of 11 [x74; x31])]
           Demo.plugin_before_100 tt).
  - reflexivity.
  - reflexivity.
Defined.

Lemma stored_traces_follow_block_order_witness :
  map id (Plugin.collect_traces (traces Demo.plugin_before_100) (trxs Demo.block_100)) = [11%N].
Proof.
  destruct (stored_traces_follow_block_order (traces Demo.plugin_before_100)
              (trxs Demo.block_100)) as [Hids _].
  - intros k t. unfold Demo.plugin_before_100, Plugin.on_applied_transaction.
    cbn [receipt Demo.trace_of traces set_traces initial_plugin id].
    rewrite lookup_insert. destruct (decide (11%N = k)) as [<- | Hne].
    + intros [= <-]. split; [reflexivity | eexists; reflexivity].
    + rewrite lookup_empty. discriminate.
  - rewrite Hids. reflexivity.
Defined.

Lemma buffer_holds_last_receipted_trace_witness :
  traces (apply_all ([Demo.trace_of 11 [x01]] ++ Demo.trace_of 11 [x02]
                       :: [ {| id := 11; receipt := None; trace_content := [x03] |};
                            Demo.trace_of 12 [x04] ]) initial_plugin) !! 11%N
  = Some (Demo.trace_of 11 [x02]).
Proof.
  apply (buffer_holds_last_receipted_trace initial_plugin [Demo.trace_of 11 [x01]]
           [ {| id := 11; receipt := None; trace_content := [x03] |}; Demo.trace_of 12 [x04] ]
           (Demo.trace_of 11 [x02]) 11%N).
  - reflexivity.
  - repeat constructor.
Defined.

(** ** The deltas of a block, whatever the database holds *)

Section DeltaShape.
Context {ser : Serialization}.
Import Plugin.

Lemma process_table_appends fresh tag index pack deltas deltas' :
  process_table fresh tag index pack deltas = Ok deltas' ->
  deltas' = deltas \/ exists rws, deltas' = deltas ++ [ {| name := tag; rows := rws |} ].
Proof.
  unfold process_table. destruct fresh.
  - destruct (bool_decide (indices index = [])); [intros [= <-]; now left|].
    destruct (ofold _ _ _) as [rws| |]; cbn [obind]; try discriminate.
    intros [= <-]. right. eauto.
  - destruct (last (stack index)) as [undo|]; [|intros [= <-]; now left].
    destruct (_ && _); [intros [= <-]; now left|].
    destruct (ofold _ [] (old_values undo)) as [r1| |]; cbn [obind]; try discriminate.
    destruct (ofold _ r1 (new_ids undo)) as [r2| |]; cbn [obind]; try discriminate.
    destruct (ofold _ r2 (removed_values undo)) as [r3| |]; cbn [obind]; try discriminate.
    intros [= <-]. right. eauto.
Qed.

Lemma passes_append_in_order chain fresh removed (passes : list (table * packer)) :
  forall acc deltas,
    ofold (fun deltas pass =>
             process_table fresh (table_tag (fst pass)) (db chain (fst pass))
               (packer_of chain removed (snd pass) (fst pass)) deltas) acc passes = Ok deltas ->
    exists added,
      deltas = acc ++ added /\
      sublist (map name added) (map (fun pass => table_tag (fst pass)) passes).
Proof.
  induction passes as [|pass passes IH]; intros acc deltas Hrun; cbn [ofold] in Hrun.
  - injection Hrun as <-. exists []. rewrite app_nil_r. split; [reflexivity | constructor].
  - destruct (process_table _ _ _ _ acc) as [acc1| |] eqn:Hstep; cbn [obind] in Hrun;
      try discriminate.
    destruct (IH _ _ Hrun) as (added & -> & Hsub).
    apply process_table_appends in Hstep as [-> | (rws & ->)].
    + exists added. split; [reflexivity|]. cbn [map]. now apply sublist_cons.
    + exists ({| name := table_tag (fst pass); rows := rws |} :: added).
      split; [now rewrite <- app_assoc|]. cbn [map name]. now apply sublist_skip.
Qed.

Lemma table_tags_distinct : NoDup (map (fun pass => table_tag (fst pass)) table_passes).
Proof. apply (bool_decide_unpack _). vm_compute. exact I. Qed.

(** X4: whenever the deltas of a block are computed, on a fresh log or
    not, their names are table tags in the order of the calls of
    [process_table], each at most once: at most sixteen deltas, no two for
    the same table. *)
Theorem deltas_follow_table_order (chain : controller) (fresh : bool)
    (deltas : list table_delta) :
  chain_state_deltas chain fresh = Ok deltas ->
  sublist (map name deltas) (map (fun pass => table_tag (fst pass)) table_passes) /\
  NoDup (map name deltas) /\
  (length deltas <= 16)%nat.
Proof.
  unfold chain_state_deltas.
  destruct (last (stack (db chain contract_table))) as [top|]; [|discriminate].
  intros Hrun. apply passes_append_in_order in Hrun as (added & -> & Hsub).
  cbn [app]. split; [exact Hsub|]. split.
  - eapply sublist_NoDup; [apply table_tags_distinct | exact Hsub].
  - apply sublist_length in Hsub. rewrite !length_map in Hsub. exact Hsub.
Qed.

Lemma removed_lookup removed tid : forall m : gmap Z chain_row,
  is_Some (fold_left (fun m rem => <[fst rem := snd rem]> m) removed m !! tid)
  <-> In tid (map fst removed) \/ is_Some (m !! tid).
Proof.
  induction removed as [|[k v] removed IH]; intros m; cbn [fold_left map In fst snd].
  - tauto.
  - rewrite IH, lookup_insert. destruct (decide (k = tid)) as [-> | Hne].
    + split; [intros _; left; now left | intros _; right; eauto].
    + tauto.
Qed.

Lemma index_find_none index oid :
  index_find index oid = None <-> forall row, In row (indices index) -> row_id row <> oid.
Proof.
  unfold index_find. split.
  - intros Hnone row Hin Heq.
    pose proof (find_none _ _ Hnone row Hin) as Hf. cbn in Hf.
    apply Z.eqb_neq in Hf. contradiction.
  - intros Hall. destruct (find _ _) as [row|] eqn:Hf; [|reflexivity].
    apply find_some in Hf as [Hin Heq]. apply Z.eqb_eq in Heq.
    now destruct (Hall row Hin).
Qed.

Lemma get_table_id_unknown table_id_index removed tid :
  (forall row, In row (indices table_id_index) -> row_id row <> tid) ->
  ~ In tid (map fst removed) ->
  get_table_id table_id_index (collect_removed_table_id removed) tid
  = Throw (plugin_exception "can not found table id ${tid}").
Proof.
  intros Hlive Hremoved. unfold get_table_id.
  rewrite (proj2 (index_find_none table_id_index tid) Hlive).
  destruct (collect_removed_table_id removed !! tid) as [obj|] eqn:Hlook; [|reflexivity].
  destruct Hremoved.
  destruct (proj1 (removed_lookup removed tid ∅)) as [Hin | [? Hempty]].
  - unfold collect_removed_table_id in Hlook. rewrite Hlook. eauto.
  - exact Hin.
  - now rewrite lookup_empty in Hempty.
Qed.

Lemma removed_lookup_absent removed tid : forall m : gmap Z chain_row,
  ~ In tid (map fst removed) ->
  fold_left (fun m rem => <[fst rem := snd rem]> m) removed m !! tid = m !! tid.
Proof.
  induction removed as [|[k v] removed IH]; intros m Hnot; cbn [fold_left fst snd];
    [reflexivity|].
  cbn [map In fst] in Hnot. rewrite IH by tauto.
  apply lookup_insert_ne. tauto.
Qed.

Lemma removed_lookup_last before obj after tid :
  ~ In tid (map fst after) ->
  collect_removed_table_id (before ++ (tid, obj) :: after) !! tid = Some obj.
Proof.
  intros Hnot. unfold collect_removed_table_id.
  rewrite fold_left_app. cbn [fold_left fst snd].
  rewrite removed_lookup_absent by assumption. apply lookup_insert_eq.
Qed.

(** X5: [get_table_id] resolves a table id to the live table id object
    when there is one, else to the object removed under that id in the
    block (the last one, should the frame list the id twice); it throws
    exactly when the id is neither live nor among the removed ones, and
    it throws nothing else. *)
Theorem get_table_id_resolves (table_id_index : chainbase_index)
    (removed : list (Z * chain_row)) (tid : Z) :
  (forall obj, index_find table_id_index tid = Some obj ->
     get_table_id table_id_index (collect_removed_table_id removed) tid = Ok obj) /\
  (forall before obj after,
     index_find table_id_index tid = None ->
     removed = before ++ (tid, obj) :: after ->
     ~ In tid (map fst after) ->
     get_table_id table_id_index (collect_removed_table_id removed) tid = Ok obj) /\
  (get_table_id table_id_index (collect_removed_table_id removed) tid
     = Throw (plugin_exception "can not found table id ${tid}")
   <-> (forall row, In row (indices table_id_index) -> row_id row <> tid) /\
       ~ In tid (map fst removed)) /\
  ((exists obj, get_table_id table_id_index (collect_removed_table_id removed) tid = Ok obj)
   <-> (exists row, In row (indices table_id_index) /\ row_id row = tid) \/
       In tid (map fst removed)).
Proof.
  assert (Hrem : is_Some (collect_removed_table_id removed !! tid)
                 <-> In tid (map fst removed)).
  { unfold collect_removed_table_id. rewrite removed_lookup, lookup_empty.
    split; [intros [H | [? H]]; [exact H | discriminate] | now left]. }
  pose proof (index_find_none table_id_index tid) as Hnone.
  unfold get_table_id. split; [|split; [|split]].
  - now intros obj ->.
  - intros before obj after -> -> Hlast. now rewrite removed_lookup_last.
  - destruct (index_find table_id_index tid) as [obj|] eqn:Hfind.
    + split; [discriminate|]. intros [Hall _]. apply Hnone in Hall. discriminate.
    + destruct (collect_removed_table_id removed !! tid) as [obj|] eqn:Hlook.
      * split; [discriminate|]. intros [_ Hnot]. destruct Hnot. apply Hrem. eauto.
      * split; [|reflexivity]. intros _. split; [now apply Hnone|].
        intros Hin. destruct (proj2 Hrem Hin) as [? ?]. discriminate.
  - destruct (index_find table_id_index tid) as [obj|] eqn:Hfind.
    + split; [|eauto]. intros _. left. unfold index_find in Hfind.
      apply find_some in Hfind as [Hin Heq]. apply Z.eqb_eq in Heq. eauto.
    + destruct (collect_removed_table_id removed !! tid) as [obj|] eqn:Hlook.
      * split; [|eauto]. intros _. right. apply Hrem. eauto.
      * split; [intros [? ?]; discriminate|].
        intros [(row & Hin & Heq) | Hin].
        -- destruct (proj1 Hnone eq_refl row Hin Heq).
        -- destruct (proj2 Hrem Hin) as [? ?]. discriminate.
Qed.

End DeltaShape.

Lemma deltas_follow_table_order_witness :
  sublist [ "account"; "contract_table"; "contract_row" ]%string
    (map (fun pass => table_tag (fst pass)) Plugin.table_passes).
Proof.
  apply (@deltas_follow_table_order Demo.ser Demo.later_chain false
           [ {| name := "account";
                rows := [(true, [x62]); (true, [x63]); (false, [x64])] |};
             {| name := "contract_table"; rows := [(false, [x74])] |};
             {| name := "contract_row"; rows := [(false, [x74; x6b])] |} ]).
  reflexivity.
Defined.

Lemma get_table_id_resolves_witness :
  @Plugin.get_table_id (db Demo.later_chain contract_table)
    (Plugin.collect_removed_table_id [(5, Demo.scope_removed)]) 5
  = Ok Demo.scope_removed /\
  @Plugin.get_table_id (db Demo.later_chain contract_table)
    (Plugin.collect_removed_table_id [(5, Demo.scope_removed)]) 77
  = Throw (plugin_exception "can not found table id ${tid}").
Proof.
  split.
  - apply (proj1 (proj2 (get_table_id_resolves (db Demo.later_chain contract_table)
                           [(5, Demo.scope_removed)] 5)) [] Demo.scope_removed []).
    + reflexivity.
    + reflexivity.
    + intros [].
  - apply (proj1 (proj2 (proj2 (get_table_id_resolves (db Demo.later_chain contract_table)
                                  [(5, Demo.scope_removed)] 77)))).
    split.
    + intros row [].
    + cbn. intros [H | []]. discriminate H.
Defined.

(** ** Blocks whose deltas cannot be computed *)

Section FailedDeltas.
Context {ser : Serialization}.
Import Plugin.

Lemma ofold_throws {A B : Type} (f : B -> A -> outcome B) (e : exn) (xs : list A) :
  (forall acc x, In x xs -> f acc x = Throw e \/ exists acc', f acc x = Ok acc') ->
  (exists x, In x xs /\ forall acc, f acc x = Throw e) ->
  forall acc, ofold f acc xs = Throw e.
Proof.
  induction xs as [|x xs IH]; intros Hstep (bad & Hin & Hbad) acc; [destruct Hin|].
  cbn [ofold]. destruct (Hstep acc x (or_introl eq_refl)) as [-> | (acc' & Hok)];
    [reflexivity|].
  rewrite Hok. cbn [obind]. apply IH.
  - intros acc0 y Hy. apply Hstep. now right.
  - destruct Hin as [<- | Hin]; [|eauto].
    rewrite Hbad in Hok. discriminate.
Qed.

Lemma ofold_ok_or_throws {A B : Type} (f : B -> A -> outcome B) (e : exn) (xs : list A) :
  (forall acc x, In x xs -> f acc x = Throw e \/ exists acc', f acc x = Ok acc') ->
  forall acc, ofold f acc xs = Throw e \/ exists acc', ofold f acc xs = Ok acc'.
Proof.
  induction xs as [|x xs IH]; intros Hstep acc; cbn [ofold]; [right; eauto|].
  destruct (Hstep acc x (or_introl eq_refl)) as [-> | (acc' & ->)]; [now left|].
  cbn [obind]. apply IH. intros acc0 y Hy. apply Hstep. now right.
Qed.

Lemma packer_of_fresh chain removed pass row :
  packer_of chain removed (snd pass) (fst pass) row = Throw unknown_table_id \/
  exists data, packer_of chain removed (snd pass) (fst pass) row = Ok data.
Proof.
  unfold packer_of, pack_row, pack_contract_row, get_table_id.
  destruct (snd pass); [right; eauto|].
  destruct (index_find _ _); [right; eauto|].
  destruct (removed !! t_id row); [right; eauto | now left].
Qed.

Lemma emplace_row_fresh pack flag row rws :
  (pack row = Throw unknown_table_id \/ exists data, pack row = Ok data) ->
  emplace_row pack flag row rws = Throw unknown_table_id \/
  exists rws', emplace_row pack flag row rws = Ok rws'.
Proof. unfold emplace_row. intros [-> | (data & ->)]; cbn [obind]; eauto. Qed.

Lemma process_table_fresh_outcome chain removed pass deltas :
  let run := process_table true (table_tag (fst pass)) (db chain (fst pass))
               (packer_of chain removed (snd pass) (fst pass)) in
  (run deltas = Throw unknown_table_id \/ exists deltas', run deltas = Ok deltas') /\
  (forall row,
     In row (indices (db chain (fst pass))) ->
     packer_of chain removed (snd pass) (fst pass) row = Throw unknown_table_id ->
     run deltas = Throw unknown_table_id).
Proof.
  cbn zeta. unfold process_table.
  destruct (bool_decide (indices (db chain (fst pass)) = [])) eqn:Hempty.
  - split; [right; eauto|]. intros row Hin _.
    apply bool_decide_eq_true_1 in Hempty. rewrite Hempty in Hin. destruct Hin.
  - split.
    + destruct (ofold_ok_or_throws
                  (fun rws row =>
                     emplace_row (packer_of chain removed (snd pass) (fst pass))
                       (bool_of_id (row_id row)) row rws)
                  unknown_table_id (indices (db chain (fst pass)))
                  ltac:(intros; apply emplace_row_fresh, packer_of_fresh) [])
        as [-> | (rws & ->)]; cbn [obind]; eauto.
    + intros row Hin Hbad.
      rewrite (ofold_throws _ unknown_table_id); [reflexivity | |].
      * intros; apply emplace_row_fresh, packer_of_fresh.
      * exists row. split; [assumption|]. intros rws. unfold emplace_row. now rewrite Hbad.
Qed.

(** X6: the first block of a log (or any block taken on an empty
    chain-state log) whose database holds a contract row scoped to a
    table id that is neither live nor removed in the block: the deltas
    cannot be computed, [store_chain_state] throws the "can not found
    table id" exception, and neither the chain-state log nor anything
    else of the plugin has changed. *)
Theorem unknown_table_id_fails_the_block (chain : controller) (bs : block_state)
    (my : state_history_plugin_impl) (top : undo_state) (pass : table * packer)
    (row : chain_row) :
  begin_block (chain_state_log my) = end_block (chain_state_log my) ->
  last (stack (db chain contract_table)) = Some top ->
  In pass table_passes ->
  snd pass = contract_scoped ->
  In row (indices (db chain (fst pass))) ->
  (forall obj, In obj (indices (db chain contract_table)) -> row_id obj <> t_id row) ->
  ~ In (t_id row) (map fst (removed_values top)) ->
  store_chain_state chain bs my = Throws unknown_table_id my.
Proof.
  intros Hfresh Htop Hpass Hk Hrow Hlive Hremoved.
  assert (Hbad : packer_of chain (collect_removed_table_id (removed_values top))
                   (snd pass) (fst pass) row = Throw unknown_table_id).
  { rewrite Hk. unfold packer_of, pack_contract_row.
    now rewrite get_table_id_unknown. }
  unfold store_chain_state. apply Z.eqb_eq in Hfresh. rewrite Hfresh.
  unfold chain_state_deltas. rewrite Htop.
  rewrite (ofold_throws _ unknown_table_id); [reflexivity | |].
  - intros acc pass' _.
    apply (process_table_fresh_outcome chain _ pass' acc).
  - exists pass. split; [assumption|]. intros acc.
    now apply (proj2 (process_table_fresh_outcome chain _ pass acc) row).
Qed.

End FailedDeltas.

Lemma unknown_table_id_fails_the_block_witness :
  @Plugin.store_chain_state Demo.ser Scenarios.orphan_chain Demo.block_100 initial_plugin
  = Throws unknown_table_id initial_plugin.
Proof.
  apply (@unknown_table_id_fails_the_block Demo.ser Scenarios.orphan_chain Demo.block_100
           initial_plugin Demo.idle_frame (contract_row, Plugin.contract_scoped)
           Scenarios.orphan_row).
  - reflexivity.
  - reflexivity.
  - cbn. tauto.
  - reflexivity.
  - cbn. now left.
  - intros obj [].
  - intros [].
Defined.

(** ** What a block leaves in the logs, and what a client reads back *)

Section StoredBlocks.
Context {ser : Serialization}.
Import Plugin.

Lemma get_data_empty_log n res : get_data empty_log n res = Ok res.
Proof. apply get_data_outside. unfold begin_block, end_block. cbn. lia. Qed.

Lemma store_traces_returns_sized bs my u my1 :
  store_traces bs my = Returns u my1 ->
  Z.of_nat (length (block_traces_bin bs my)) <= 2 ^ 32 - 1 /\
  exists log,
    write_entry (trace_log my) (sized_header bs (block_traces_bin bs my))
      (previous (block bs)) (sized_payload (block_traces_bin bs my)) = Ok log /\
    my1 = set_trace_log log (set_traces ∅ my).
Proof.
  rewrite store_traces_unfold.
  destruct (Z.leb_spec (Z.of_nat (length (block_traces_bin bs my))) (2 ^ 32 - 1));
    [|discriminate].
  destruct (write_entry _ _ _ _) as [log| |] eqn:Hw; try discriminate.
  intros [= _ <-]. eauto.
Qed.

Lemma store_chain_state_returns_sized chain bs my u my' :
  store_chain_state chain bs my = Returns u my' ->
  exists deltas log,
    chain_state_deltas chain
      (begin_block (chain_state_log my) =? end_block (chain_state_log my)) = Ok deltas /\
    Z.of_nat (length (pack_deltas deltas)) <= 2 ^ 32 - 1 /\
    write_entry (chain_state_log my) (sized_header bs (pack_deltas deltas))
      (previous (block bs)) (sized_payload (pack_deltas deltas)) = Ok log /\
    my' = set_chain_state_log log my.
Proof.
  destruct (chain_state_deltas chain
              (begin_block (chain_state_log my) =? end_block (chain_state_log my)))
    as [deltas| |] eqn:Hd.
  - rewrite (store_chain_state_unfold _ _ _ _ Hd).
    destruct (Z.leb_spec (Z.of_nat (length (pack_deltas deltas))) (2 ^ 32 - 1));
      [|discriminate].
    destruct (write_entry _ _ _ _) as [log| |] eqn:Hw; try discriminate.
    intros [= _ <-]. eauto 10.
  - unfold store_chain_state. rewrite Hd. discriminate.
  - unfold store_chain_state. rewrite Hd. discriminate.
Qed.

Lemma extends_aligned log1 log2 bs :
  ancestry log1 = ancestry log2 -> extends log1 bs -> extends log2 bs.
Proof.
  intros Ha Hext. destruct (ancestry_range _ _ Ha) as [_ Hend].
  injection Ha as _ Hids.
  destruct Hext as [Hempty | (older & newest & Hes & Hnum & Hid)].
  - left. rewrite Hempty in Hids. destruct (entries log2); [reflexivity | discriminate].
  - right. rewrite Hes, map_app in Hids. symmetry in Hids.
    apply map_eq_app in Hids as (older' & last' & Hes' & _ & Hlast).
    destruct last' as [|newest' [|? ?]]; try discriminate.
    injection Hlast as Hlast.
    exists older', newest'. split; [exact Hes'|]. split; [congruence | congruence].
Qed.

(** X7: a block that extends the logs, accepted and then asked for.  The
    GetBlock answer carries, as [traces], the serialised traces that
    [store_traces] collected for the block and, as [deltas], the
    serialised deltas that [store_chain_state] computed for it, byte for
    byte; [block] is the serialised block of the store. *)
Theorem accepted_block_is_served (chain chain' : controller) (bs : block_state)
    (my my' : state_history_plugin_impl) (u : unit) (b : signed_block) :
  block_state_log my = empty_log ->
  aligned my ->
  extends (trace_log my) bs ->
  on_accepted_block chain bs my = Returns u my' ->
  fetch_block_by_number chain' (sb_block_num (block bs)) = Some b ->
  exists deltas,
    chain_state_deltas chain
      (begin_block (chain_state_log my) =? end_block (chain_state_log my)) = Ok deltas /\
    handle_get_block chain' my' (sb_block_num (block bs)) =
      Ok {| result_block_num := sb_block_num (block bs);
            result_block := Some (pack_signed_block b);
            result_block_state := None;
            result_traces := Some (block_traces_bin bs my);
            result_deltas := Some (pack_deltas deltas) |}.
Proof.
  intros Hbsl Hal Hext Hrun Hfetch. rewrite on_accepted_block_unfold in Hrun.
  destruct (store_traces bs my) as [[] my1 | |] eqn:Ht; try discriminate.
  apply store_traces_returns_sized in Ht as (Hsize1 & log1 & Hw1 & ->).
  apply store_chain_state_returns_sized in Hrun as (deltas & log2 & Hd & Hsize2 & Hw2 & ->).
  cbn [chain_state_log set_trace_log set_traces] in Hd, Hw2.
  exists deltas. split; [exact Hd|].
  unfold handle_get_block, get_block. rewrite Hfetch.
  cbn [obind result_block result_block_state result_traces result_deltas
       block_state_log trace_log chain_state_log set_chain_state_log set_trace_log set_traces].
  rewrite Hbsl.
  rewrite get_data_empty_log. cbn [obind].
  rewrite (written_entry_read_back (trace_log my) bs _ log1 None Hext Hsize1 Hw1).
  cbn [obind].
  rewrite (written_entry_read_back (chain_state_log my) bs _ log2 None
             (extends_aligned _ _ bs Hal Hext) Hsize2 Hw2).
  reflexivity.
Qed.

(** X8: whatever the logs hold, when the GetBlock handler produces a
    result its [block] field is engaged and is the serialised block of the
    store, and [block_num] echoes the request: no response with an absent
    [block] is ever built. *)
Theorem block_field_is_never_absent (chain : controller) (my : state_history_plugin_impl)
    (n : Z) (r : get_block_result_v0) :
  handle_get_block chain my n = Ok r ->
  result_block_num r = n /\
  exists b, fetch_block_by_number chain n = Some b /\
            result_block r = Some (pack_signed_block b).
Proof.
  unfold handle_get_block, get_block. cbn [result_block].
  destruct (fetch_block_by_number chain n) as [b|]; [|discriminate]. cbn [obind].
  destruct (get_data (block_state_log my) n _) as [bst| |]; cbn [obind]; try discriminate.
  destruct (get_data (trace_log my) n _) as [trc| |]; cbn [obind]; try discriminate.
  destruct (get_data (chain_state_log my) n _) as [dlt| |]; cbn [obind]; try discriminate.
  intros [= <-]. cbn. eauto.
Qed.

Lemma write_entry_shape log h prev p log' :
  write_entry log h prev p = Ok log' ->
  exists k, entries log' = take k (entries log) ++ [ {| entry_header := h; entry_payload := p |} ].
Proof.
  unfold write_entry.
  destruct (_ =? _); [intros [= <-]; now exists 0%nat|].
  destruct (_ <? _); [discriminate|].
  destruct (_ <? _); [discriminate|].
  destruct (fork_point _ _ _) as [|k]; intros [= <-]; [now exists 0%nat | now exists (S k)].
Qed.

Lemma sized_entry bs bin :
  Z.of_nat (length bin) <= 2 ^ 32 - 1 ->
  entry_sized {| entry_header := sized_header bs bin; entry_payload := sized_payload bin |}.
Proof.
  intros Hsize. exists bin. split; [assumption|]. split; [reflexivity|].
  unfold sized_header, sized_payload. cbn [payload_size entry_header entry_payload].
  rewrite length_app, WireFacts.le32_length. lia.
Qed.

Lemma write_entry_sized log bs bin prev log' :
  log_sized log ->
  Z.of_nat (length bin) <= 2 ^ 32 - 1 ->
  write_entry log (sized_header bs bin) prev (sized_payload bin) = Ok log' ->
  log_sized log'.
Proof.
  intros Hlog Hsize Hw. apply write_entry_shape in Hw as [k Hes].
  unfold log_sized. rewrite Hes. apply Forall_app. split.
  - now apply Forall_take.
  - constructor; [now apply sized_entry | constructor].
Qed.

Lemma on_accepted_block_sized chain bs my u my' :
  log_sized (trace_log my) -> log_sized (chain_state_log my) ->
  on_accepted_block chain bs my = Returns u my' ->
  log_sized (trace_log my') /\ log_sized (chain_state_log my').
Proof.
  intros H1 H2 Hrun. rewrite on_accepted_block_unfold in Hrun.
  destruct (store_traces bs my) as [[] my1 | |] eqn:Ht; try discriminate.
  apply store_traces_returns_sized in Ht as (Hsize1 & log1 & Hw1 & ->).
  apply store_chain_state_returns_sized in Hrun as (deltas & log2 & Hd & Hsize2 & Hw2 & ->).
  cbn [chain_state_log trace_log set_chain_state_log set_trace_log set_traces] in *.
  split.
  - exact (write_entry_sized _ _ _ _ _ H1 Hsize1 Hw1).
  - exact (write_entry_sized _ _ _ _ _ H2 Hsize2 Hw2).
Qed.

Lemma ingest_sized evs : forall my my' u,
  log_sized (trace_log my) -> log_sized (chain_state_log my) ->
  ingest evs my = Returns u my' ->
  log_sized (trace_log my') /\ log_sized (chain_state_log my') /\
  block_state_log my' = block_state_log my.
Proof.
  induction evs as [|ev evs IH]; intros my my' u H1 H2 Hrun; cbn [ingest] in Hrun.
  - injection Hrun as _ <-. auto.
  - destruct ev as [p | chain bs].
    + apply IH in Hrun as (? & ? & ->).
      * repeat split; try assumption. unfold on_applied_transaction. now destruct (receipt p).
      * unfold on_applied_transaction. now destruct (receipt p).
      * unfold on_applied_transaction. now destruct (receipt p).
    + unfold rbind in Hrun.
      pose proof (on_accepted_block_keeps_block_state_log chain bs my) as Hkeep.
      destruct (on_accepted_block chain bs my) as [[] my1 | |] eqn:Hblock; try discriminate.
      destruct (on_accepted_block_sized chain bs my tt my1 H1 H2 Hblock) as [H1' H2'].
      apply IH in Hrun as (? & ? & ->); auto.
Qed.

Lemma get_data_sized log n res :
  log_sized log -> exists v, get_data log n res = Ok v.
Proof.
  intros Hlog.
  destruct (Z_lt_dec n (begin_block log)); [rewrite get_data_outside by lia; eauto|].
  destruct (Z_le_dec (end_block log) n); [rewrite get_data_outside by lia; eauto|].
  assert (Hk : (Z.to_nat (n - begin_block log) < length (entries log))%nat)
    by (unfold end_block, begin_block in *; lia).
  destruct (drop (Z.to_nat (n - begin_block log)) (entries log)) as [|e later] eqn:Hdrop.
  { apply (f_equal (@length _)) in Hdrop. rewrite length_drop in Hdrop. cbn in Hdrop. lia. }
  assert (He : entry_sized e).
  { pose proof (Forall_drop _ (Z.to_nat (n - begin_block log)) _ Hlog) as Hd.
    rewrite Hdrop in Hd. now inversion Hd. }
  destruct He as (bin & Hsize & Hpay & _).
  exists (Some bin).
  apply (get_data_inside log n res (entry_header e) (Z.of_nat (length bin)) bin
           (flat_map entry_bytes later)); [lia | | lia | now rewrite Nat2Z.id].
  unfold get_entry.
  destruct (Z.ltb_spec n (begin_block log)); [lia|].
  destruct (Z.leb_spec (end_block log) n); [lia|].
  cbn [orb]. rewrite Hdrop, Hpay. unfold sized_payload. now rewrite <- app_assoc.
Qed.

(** X9: on a plugin that started with empty logs and has served any
    signals since, a GetBlock request for a block the store holds always
    gets its response: every entry the plugin wrote starts with a complete
    u32 size, so [get_data] never reads an indeterminate size. *)
Theorem served_logs_answer_every_known_block (evs : list chain_event)
    (my : state_history_plugin_impl) (u : unit) (chain : controller) (n : Z)
    (b : signed_block) :
  ingest evs initial_plugin = Returns u my ->
  fetch_block_by_number chain n = Some b ->
  exists r, handle_get_block chain my n = Ok r.
Proof.
  intros Hrun Hfetch.
  apply ingest_sized in Hrun as (H1 & H2 & H3); [| constructor | constructor].
  unfold handle_get_block, get_block. rewrite Hfetch. cbn [obind result_block_state].
  rewrite H3. cbn [block_state_log initial_plugin].
  rewrite get_data_empty_log. cbn [obind result_traces].
  destruct (get_data_sized (trace_log my) n None H1) as [trc ->]. cbn [obind result_deltas].
  destruct (get_data_sized (chain_state_log my) n None H2) as [dlt ->]. cbn [obind].
  eauto.
Qed.

(** X10: on such a plugin, the header of every entry of the trace log and
    of the chain-state log gives, as [payload_size], the number of bytes
    of the entry's payload, and the payload is a u32 size followed by
    exactly that many bytes. *)
Theorem written_entries_are_sized (evs : list chain_event)
    (my : state_history_plugin_impl) (u : unit) (e : log_entry) :
  ingest evs initial_plugin = Returns u my ->
  In e (entries (trace_log my) ++ entries (chain_state_log my)) ->
  payload_size (entry_header e) = Z.of_nat (length (entry_payload e)) /\
  exists bin,
    entry_payload e = Wire.le32 (Z.of_nat (length bin)) ++ bin /\
    Wire.of_le (take 4 (entry_payload e)) = Z.of_nat (length bin).
Proof.
  intros Hrun Hin.
  apply ingest_sized in Hrun as (H1 & H2 & _); [| constructor | constructor].
  assert (He : entry_sized e).
  { apply in_app_or in Hin as [Hin | Hin];
      [apply (proj1 (List.Forall_forall _ _) H1) | apply (proj1 (List.Forall_forall _ _) H2)];
      exact Hin. }
  destruct He as (bin & Hsize & Hpay & Hps).
  split; [exact Hps|]. exists bin. split; [exact Hpay|].
  rewrite Hpay. unfold sized_payload.
  rewrite take_app_length' by reflexivity.
  rewrite WireFacts.of_le_le32. apply WireFacts.to_uint32_small. lia.
Qed.

End StoredBlocks.

Lemma accepted_block_is_served_witness :
  exists deltas,
    @Plugin.chain_state_deltas Demo.ser Demo.genesis_chain
      (begin_block (chain_state_log Demo.plugin_before_100)
       =? end_block (chain_state_log Demo.plugin_before_100)) = Ok deltas /\
    @Plugin.handle_get_block Demo.ser Demo.genesis_chain Demo.plugin_after_100
      (sb_block_num (block Demo.block_100)) =
      Ok {| result_block_num := sb_block_num (block Demo.block_100);
            result_block := Some (@pack_signed_block Demo.ser (Demo.block_of 100 7 6));
            result_block_state := None;
            result_traces := Some (@block_traces_bin Demo.ser Demo.block_100
                                     Demo.plugin_before_100);
            result_deltas := Some (@pack_deltas Demo.ser deltas) |}.
Proof.
  apply (@accepted_block_is_served Demo.ser Demo.genesis_chain Demo.genesis_chain
           Demo.block_100 Demo.plugin_before_100 Demo.plugin_after_100 tt
           (Demo.block_of 100 7 6)).
  - reflexivity.
  - reflexivity.
  - left. reflexivity.
  - reflexivity.
  - reflexivity.
Defined.

Lemma block_field_is_never_absent_witness :
  exists b, fetch_block_by_number Demo.genesis_chain 100 = Some b /\
            Some [x42] = Some (@pack_signed_block Demo.ser b).
Proof.
  exact (proj2 (@block_field_is_never_absent Demo.ser Demo.genesis_chain
                  Demo.plugin_after_100 100
                  {| result_block_num := 100; result_block := Some [x42];
                     result_block_state := None; result_traces := Some [x74; x31];
                     result_deltas := Some [x00; x61] |} eq_refl)).
Defined.

Lemma served_logs_answer_every_known_block_witness :
  exists r, @Plugin.handle_get_block Demo.ser Demo.genesis_chain Demo.plugin_after_100 100
            = Ok r.
Proof.
  apply (@served_logs_answer_every_known_block Demo.ser
           [ applied_transaction (Demo.trace_of 11 [x74; x31]);
             accepted_block Demo.genesis_chain Demo.block_100 ]
           Demo.plugin_after_100 tt Demo.genesis_chain 100 (Demo.block_of 100 7 6)).
  - reflexivity.
  - reflexivity.
Defined.

Lemma written_entries_are_sized_witness :
  payload_size {| block_num := 100; block_id := 7; payload_size := 6 |}
  = Z.of_nat (length (Wire.le32 2 ++ [x74; x31])) /\
  exists bin,
    Wire.le32 2 ++ [x74; x31] = Wire.le32 (Z.of_nat (length bin)) ++ bin /\
    Wire.of_le (take 4 (Wire.le32 2 ++ [x74; x31])) = Z.of_nat (length bin).
Proof.
  apply (@written_entries_are_sized Demo.ser
           [ applied_transaction (Demo.trace_of 11 [x74; x31]);
             accepted_block Demo.genesis_chain Demo.block_100 ]
           Demo.plugin_after_100 tt
           {| entry_header := {| block_num := 100; block_id := 7; payload_size := 6 |};
              entry_payload := Wire.le32 2 ++ [x74; x31] |}).
  - reflexivity.
  - left. reflexivity.
Defined.

(** ** A block whose deltas fail after its traces were stored *)

Section HalfStoredBlock.
Context {ser : Serialization}.
Import Plugin.

Lemma write_entry_extends_ok log bs h p :
  extends log bs ->
  block_num h = sb_block_num (block bs) ->
  exists log', write_entry log h (previous (block bs)) p = Ok log' /\
               block_count log' = block_count log + 1.
Proof.
  intros Hext Hn. unfold write_entry, block_count, begin_block, end_block.
  destruct Hext as [Hempty | (older & newest & Hes & Hend & Hid)].
  - rewrite Hempty. cbn [length]. rewrite Z.add_0_r, Z.eqb_refl.
    eexists. split; [reflexivity|]. cbn. lia.
  - unfold end_block in Hend. rewrite Hes in *. rewrite length_app in *. cbn [length] in *.
    destruct (Z.eqb_spec (first_block log) (first_block log + Z.of_nat (length older + 1)));
      [lia|].
    destruct (Z.ltb_spec (first_block log + Z.of_nat (length older + 1)) (block_num h)); [lia|].
    destruct (Z.ltb_spec (block_num h) (first_block log)); [lia|].
    replace (Z.to_nat (block_num h - first_block log)) with (S (length older)) by lia.
    rewrite fork_point_newest by assumption.
    rewrite firstn_all2 by (rewrite length_app; cbn; lia).
    eexists. split; [reflexivity|]. cbn [first_block entries]. rewrite !length_app.
    cbn [length]. lia.
Qed.

(** X11: [on_accepted_block] is not atomic over the two logs.  When a
    block extends logs that hold the same blocks, its traces fit, and the
    computation of its deltas throws, the exception leaves
    [on_accepted_block] after the trace log took the block: the buffer is
    empty, the chain-state log is as it was, and the trace log covers one
    block more than the chain-state log. *)
Theorem failed_deltas_leave_trace_log_ahead (chain : controller) (bs : block_state)
    (my : state_history_plugin_impl) (e : exn) :
  aligned my ->
  extends (trace_log my) bs ->
  Z.of_nat (length (block_traces_bin bs my)) <= 2 ^ 32 - 1 ->
  chain_state_deltas chain
    (begin_block (chain_state_log my) =? end_block (chain_state_log my)) = Throw e ->
  exists my',
    on_accepted_block chain bs my = Throws e my' /\
    traces my' = ∅ /\
    chain_state_log my' = chain_state_log my /\
    block_count (trace_log my') = block_count (chain_state_log my') + 1.
Proof.
  intros Hal Hext Hsize Hd.
  destruct (write_entry_extends_ok (trace_log my) bs
              (sized_header bs (block_traces_bin bs my))
              (sized_payload (block_traces_bin bs my)) Hext eq_refl) as (log1 & Hw & Hcount).
  exists (set_trace_log log1 (set_traces ∅ my)).
  rewrite on_accepted_block_unfold, store_traces_unfold.
  apply Z.leb_le in Hsize. rewrite Hsize, Hw.
  unfold store_chain_state. cbn [chain_state_log set_trace_log set_traces]. rewrite Hd.
  repeat split. cbn [trace_log set_trace_log]. rewrite Hcount.
  destruct (ancestry_range _ _ Hal) as [Hb He]. unfold block_count. lia.
Qed.

End HalfStoredBlock.

Lemma failed_deltas_leave_trace_log_ahead_witness :
  exists my',
    @Plugin.on_accepted_block Demo.ser Scenarios.orphan_chain Demo.block_100
      Demo.plugin_before_100 = Throws unknown_table_id my' /\
    traces my' = ∅ /\
    chain_state_log my' = chain_state_log Demo.plugin_before_100 /\
    block_count (trace_log my') = block_count (chain_state_log my') + 1.
Proof.
  apply (@failed_deltas_leave_trace_log_ahead Demo.ser Scenarios.orphan_chain Demo.block_100
           Demo.plugin_before_100 unknown_table_id).
  - reflexivity.
  - left. reflexivity.
  - vm_compute. discriminate.
  - reflexivity.
Defined.

(** ** Frames of a session: text, binary, and none after a failure *)

Section Frames.
Context {ser : Serialization}.
Import Session.

Lemma frames_flagged_send s : frames_flagged s -> frames_flagged (send s).
Proof.
  intros (Habi & rest & Heq & Hall). unfold send.
  destruct (sending s || bool_decide (send_queue s = [])); [split; eauto|].
  split; [reflexivity|]. cbn [written writes_in_flight].
  exists (rest ++ [(sentAbi s, hd [] (send_queue s))]).
  rewrite app_assoc, Heq. split; [reflexivity|].
  apply Forall_app. split; [assumption|]. constructor; [exact Habi | constructor].
Qed.

Lemma frames_flagged_step s ev s' :
  frames_flagged s -> step s ev = Ok s' -> frames_flagged s'.
Proof.
  intros Hfl. destruct ev as [chain my req | |]; cbn [step].
  - unfold on_read. destruct (Plugin.visit chain my req) as [r| |]; try discriminate.
    + intros [= <-]. unfold send_frame. apply frames_flagged_send.
      destruct s. exact Hfl.
    + intros [= <-]. destruct s. exact Hfl.
  - destruct (writes_in_flight s) as [|w others] eqn:Hw; [now intros [= <-]|].
    unfold on_write. destruct (send_queue s) as [|front queue]; [discriminate|].
    intros [= <-]. apply frames_flagged_send.
    destruct Hfl as (Habi & rest & Heq & Hall). split; [exact Habi|].
    cbn [written writes_in_flight]. exists rest.
    rewrite <- app_assoc. cbn [app]. rewrite <- Hw. auto.
  - intros [= <-]. destruct s. exact Hfl.
Qed.

(** X12: of the frames a session hands to its stream, the first is the
    ABI and goes out as a text frame; every frame after it goes out as a
    binary frame. *)
Theorem only_the_abi_is_text (evs : list event) (s : session) :
  run (on_accept new_session) evs = Ok s ->
  exists rest,
    written s ++ writes_in_flight s = (false, state_history_plugin_abi) :: rest /\
    Forall (fun w => fst w = true) rest.
Proof.
  assert (Hgen : forall evs s0 s1,
             frames_flagged s0 -> run s0 evs = Ok s1 -> frames_flagged s1).
  { clear. induction evs as [|ev evs' IH]; intros s0 s1 Hfl Hrun.
    - now injection Hrun as <-.
    - unfold run in Hrun. cbn [ofold] in Hrun.
      destruct (step s0 ev) as [s2| |] eqn:Hstep; cbn [obind] in Hrun; try discriminate.
      apply (IH s2 s1); [|exact Hrun]. now apply (frames_flagged_step s0 ev). }
  intros Hrun. apply (Hgen evs (on_accept new_session) s); [|assumption].
  split; [reflexivity|]. exists []. split; [reflexivity | constructor].
Qed.

Lemma run_app evs1 evs2 : forall s s',
  run s (evs1 ++ evs2) = Ok s' ->
  exists s1, run s evs1 = Ok s1 /\ run s1 evs2 = Ok s'.
Proof.
  unfold run. induction evs1 as [|ev evs1 IH]; intros s s' Hrun; cbn [app ofold] in *.
  - eauto.
  - destruct (step s ev) as [s0| |]; cbn [obind] in *; try discriminate. now apply IH.
Qed.

Lemma responses_app evs1 evs2 :
  responses (evs1 ++ evs2) = responses evs1 ++ responses evs2.
Proof.
  induction evs1 as [|ev evs1 IH]; cbn [app responses]; [reflexivity|].
  destruct ev as [chain my req | |]; [|exact IH | exact IH].
  destruct (Plugin.visit chain my req); [now rewrite IH | exact IH | exact IH].
Qed.

Lemma step_stays_closed s ev s' :
  step s ev = Ok s' -> is_open s = false -> is_open s' = false.
Proof.
  destruct ev as [chain my req | |]; cbn [step].
  - unfold on_read. destruct (Plugin.visit chain my req) as [r| |]; try discriminate.
    + intros [= <-]. now rewrite send_frame_open.
    + now intros [= <-].
  - destruct (writes_in_flight s) as [|w others]; [now intros [= <-]|].
    unfold on_write. destruct (send_queue s) as [|front queue]; [discriminate|].
    intros [= <-]. unfold send. cbn [sending send_queue]. now destruct (_ || _).
  - now intros [= <-].
Qed.

Lemma run_stays_closed evs : forall s s',
  run s evs = Ok s' -> is_open s = false -> is_open s' = false.
Proof.
  unfold run. induction evs as [|ev evs IH]; intros s s' Hrun Hc; cbn [ofold] in Hrun.
  - now injection Hrun as <-.
  - destruct (step s ev) as [s0| |] eqn:Hstep; cbn [obind] in Hrun; try discriminate.
    apply (IH s0 s' Hrun). now apply (step_stays_closed s ev).
Qed.

(** X13: a failed completion closes the session's stream for good, no
    later completion reopens it, but it does not stop the session: a
    request read after the failure is still answered, and the frames
    written out followed by the queue stay the ABI, the responses to the
    requests read before the failure and the responses to those read after
    it, in that order. *)
Theorem failed_session_still_answers (before after : list event) (s : session) :
  run (on_accept new_session) (before ++ failed :: after) = Ok s ->
  is_open s = false /\
  map snd (written s) ++ send_queue s
  = state_history_plugin_abi :: responses before ++ responses after.
Proof.
  intros Hrun. split.
  - apply run_app in Hrun as (s1 & _ & Hafter).
    unfold run in Hafter. cbn [ofold step obind] in Hafter.
    now apply (run_stays_closed after (close s1) s).
  - pose proof (queue_inv_run _ _ _ s queue_inv_on_accept Hrun) as [Hframes _].
    rewrite Hframes, responses_app. reflexivity.
Qed.

End Frames.

Lemma only_the_abi_is_text_witness :
  exists s rest,
    @Session.run Demo.ser (@Session.on_accept Demo.ser Session.new_session)
      [ Session.read_done Demo.genesis_chain Demo.plugin_after_100 get_status_request_v0;
        Session.write_done ] = Ok s /\
    Session.written s ++ Session.writes_in_flight s
      = (false, @state_history_plugin_abi Demo.ser) :: rest /\
    Forall (fun w => fst w = true) rest.
Proof.
  eexists.
  assert (Hrun : @Session.run Demo.ser (@Session.on_accept Demo.ser Session.new_session)
                   [ Session.read_done Demo.genesis_chain Demo.plugin_after_100
                       get_status_request_v0;
                     Session.write_done ] = Ok _) by reflexivity.
  destruct (@only_the_abi_is_text Demo.ser _ _ Hrun) as (rest & Heq & Hall).
  exists rest. split; [exact Hrun|]. split; assumption.
Defined.

Lemma failed_session_still_answers_witness :
  exists s,
    @Session.run Demo.ser (@Session.on_accept Demo.ser Session.new_session)
      ([] ++ Session.failed
          :: [ Session.read_done Demo.genesis_chain Demo.plugin_after_100
                 get_status_request_v0 ])
    = Ok s /\
    Session.is_open s = false /\
    map snd (Session.written s) ++ Session.send_queue s
    = [ @state_history_plugin_abi Demo.ser;
        @pack_state_result Demo.ser
          (status_result
             (@Plugin.handle_get_status Demo.genesis_chain Demo.plugin_after_100)) ].
Proof.
  eexists. split; [reflexivity|].
  apply (@failed_session_still_answers Demo.ser []
           [ Session.read_done Demo.genesis_chain Demo.plugin_after_100
               get_status_request_v0 ]).
  reflexivity.
Defined.

(** ** The endpoint option *)

Module ConfigFacts.
Import Config.

Lemma size_append a b : size (a ++ b)%string = size a + size b.
Proof.
  unfold size. induction a as [|c a IH].
  - change ("" ++ b)%string with b. cbn [String.length]. lia.
  - change (String c a ++ b)%string with (String c (a ++ b)). cbn [String.length]. lia.
Qed.

Lemma size_String c s : size (String c s) = 1 + size s.
Proof. unfold size. cbn [String.length]. lia. Qed.

Lemma size_nonneg s : 0 <= size s.
Proof. unfold size. lia. Qed.

Lemma find_from_absent c s : forall pos, mentions c s = false -> find_from c s pos = npos.
Proof.
  induction s as [|a s IH]; intros pos Hm; cbn [find_from mentions] in *; [reflexivity|].
  apply orb_false_iff in Hm as [-> Hm]. now apply IH.
Qed.

Lemma find_from_first c host rest : forall pos,
  mentions c host = false ->
  find_from c (host ++ String c rest)%string pos = pos + size host.
Proof.
  induction host as [|a host IH]; intros pos Hm.
  - change ("" ++ String c rest)%string with (String c rest). cbn [find_from].
    rewrite Ascii.eqb_refl. unfold size. cbn [String.length]. lia.
  - change (String a host ++ String c rest)%string with (String a (host ++ String c rest)).
    cbn [find_from mentions] in *.
    apply orb_false_iff in Hm as [-> Hm]. rewrite IH by assumption.
    rewrite size_String. lia.
Qed.

Lemma substring_all s : String.substring 0 (String.length s) s = s.
Proof.
  induction s as [|c s IH]; [reflexivity|].
  cbn [String.length String.substring]. now rewrite IH.
Qed.

Lemma substring_front host rest :
  String.substring 0 (String.length host) (host ++ rest)%string = host.
Proof.
  induction host as [|c host IH].
  - change ("" ++ rest)%string with rest. now destruct rest.
  - change (String c host ++ rest)%string with (String c (host ++ rest)).
    cbn [String.length String.substring]. now rewrite IH.
Qed.

Lemma substring_back host c rest :
  String.substring (S (String.length host)) (String.length rest)
    (host ++ String c rest)%string = rest.
Proof.
  induction host as [|a host IH].
  - change ("" ++ String c rest)%string with (String c rest).
    cbn [String.length String.substring]. apply substring_all.
  - change (String a host ++ String c rest)%string with (String a (host ++ String c rest)).
    cbn [String.length String.substring]. exact IH.
Qed.

(** The two [substr] calls on an option with a colon. *)
Lemma split_at_colon host rest :
  mentions ":"%char host = false ->
  size (host ++ String ":"%char rest)%string < npos ->
  let ip_port := (host ++ String ":"%char rest)%string in
  substr ip_port ((find ":"%char ip_port + 1) mod 2 ^ 64) (size ip_port) = Parsed rest /\
  substr ip_port 0 (find ":"%char ip_port) = Parsed host.
Proof.
  intros Hm Hsize. cbn zeta. unfold find. rewrite find_from_first by assumption.
  rewrite size_append, size_String in *. unfold npos in Hsize.
  pose proof (size_nonneg host). pose proof (size_nonneg rest).
  rewrite Z.mod_small by lia. unfold substr.
  rewrite size_append, size_String.
  destruct (Z.ltb_spec (size host + (1 + size rest)) (0 + size host + 1)); [lia|].
  destruct (Z.ltb_spec (size host + (1 + size rest)) 0); [lia|].
  split; f_equal.
  - rewrite Z.min_r by lia.
    replace (Z.to_nat (0 + size host + 1)) with (S (String.length host))
      by (unfold size; lia).
    replace (Z.to_nat (size host + (1 + size rest) - (0 + size host + 1)))
      with (String.length rest) by (unfold size; lia).
    apply substring_back.
  - rewrite Z.min_l by lia.
    replace (Z.to_nat (0 + size host)) with (String.length host) by (unfold size; lia).
    apply substring_front.
Qed.

(** X14: an option that has a colon is split at its first colon: the
    address is what stands before it, and the port is [std::stoi] of what
    stands after it (further colons included), reduced to 16 bits. *)
Theorem endpoint_splits_at_first_colon (host rest : string) :
  mentions ":"%char host = false ->
  size (host ++ String ":"%char rest)%string < npos ->
  plugin_initialize_endpoint (host ++ String ":"%char rest)%string =
    pbind (stoi rest)
      (fun p => Parsed {| endpoint_address := host; endpoint_port := p mod 2 ^ 16 |}).
Proof.
  intros Hm Hsize. unfold plugin_initialize_endpoint.
  destruct (split_at_colon host rest Hm Hsize) as [-> ->]. reflexivity.
Qed.

(** X15: an option without a colon is taken whole both as the address
    and as the text of the port: [find] yields [npos], and [npos + 1]
    wraps to position 0. *)
Theorem endpoint_without_colon (s : string) :
  mentions ":"%char s = false ->
  size s < npos ->
  plugin_initialize_endpoint s =
    pbind (stoi s)
      (fun p => Parsed {| endpoint_address := s; endpoint_port := p mod 2 ^ 16 |}).
Proof.
  intros Hm Hsize. unfold plugin_initialize_endpoint, find.
  rewrite find_from_absent by assumption.
  change ((npos + 1) mod 2 ^ 64) with 0. unfold substr.
  pose proof (size_nonneg s).
  destruct (Z.ltb_spec (size s) 0); [lia|].
  rewrite Z.sub_0_r, Z.min_id, Z.min_r by lia.
  replace (Z.to_nat (size s)) with (String.length s) by (unfold size; lia).
  change (Z.to_nat 0) with 0%nat. rewrite substring_all. reflexivity.
Qed.

Lemma digit_cases d : is_digit d ->
  d = 0 \/ d = 1 \/ d = 2 \/ d = 3 \/ d = 4 \/ d = 5 \/ d = 6 \/ d = 7 \/ d = 8 \/ d = 9.
Proof. unfold is_digit. lia. Qed.

Lemma digit_of_digit_char d : is_digit d -> digit_of (digit_char d) = Some d.
Proof.
  intros Hd. apply digit_cases in Hd.
  repeat (destruct Hd as [-> | Hd]; [reflexivity|]). now subst.
Qed.

Lemma digits_digit_string ds : forall acc seen,
  Forall is_digit ds ->
  digits (digit_string ds) acc seen
  = (fold_left (fun acc d => 10 * acc + d) ds acc,
     seen || negb (bool_decide (ds = []))).
Proof.
  induction ds as [|d ds IH]; intros acc seen Hds; cbn [digit_string digits fold_left].
  - now rewrite orb_false_r.
  - inversion Hds as [|? ? Hd Hds']; subst.
    rewrite digit_of_digit_char, IH by assumption.
    rewrite (bool_decide_eq_false_2 (d :: ds = [])) by discriminate.
    cbn [negb orb]. now rewrite orb_true_r.
Qed.

Lemma fold_decimal_nonneg ds : forall acc,
  Forall is_digit ds -> 0 <= acc -> 0 <= fold_left (fun acc d => 10 * acc + d) ds acc.
Proof.
  induction ds as [|d ds IH]; intros acc Hds Hacc; cbn [fold_left]; [assumption|].
  inversion Hds as [|? ? Hd Hds']; subst. apply IH; [assumption|]. unfold is_digit in Hd. lia.
Qed.

Lemma stoi_digit_string d ds :
  Forall is_digit (d :: ds) ->
  stoi (digit_string (d :: ds)) =
    if decimal (d :: ds) <=? 2 ^ 31 - 1 then Parsed (decimal (d :: ds)) else Fails out_of_range.
Proof.
  intros Hds.
  assert (Hfront : forall tail,
             let s := String (digit_char d) tail in
             skip_space s = s /\
             match s with
             | String "-"%char s' => (true, s')
             | String "+"%char s' => (false, s')
             | _ => (false, s)
             end = (false, s)).
  { intros tail. inversion Hds as [|? ? Hd _]; subst. apply digit_cases in Hd.
    repeat (destruct Hd as [-> | Hd]; [split; reflexivity|]). subst. split; reflexivity. }
  unfold stoi. cbn [digit_string].
  destruct (Hfront (digit_string ds)) as [-> ->]. cbn [fst snd].
  change (String (digit_char d) (digit_string ds)) with (digit_string (d :: ds)).
  rewrite digits_digit_string by assumption.
  rewrite bool_decide_eq_false_2 by discriminate. cbn [fst snd orb negb].
  fold (decimal (d :: ds)).
  pose proof (fold_decimal_nonneg (d :: ds) 0 Hds ltac:(lia)) as Hpos.
  fold (decimal (d :: ds)) in Hpos.
  destruct (Z.ltb_spec (decimal (d :: ds)) (- 2 ^ 31)); [lia|].
  cbn [orb].
  destruct (Z.ltb_spec (2 ^ 31 - 1) (decimal (d :: ds))),
           (Z.leb_spec (decimal (d :: ds)) (2 ^ 31 - 1)); try lia; reflexivity.
Qed.

(** X16: a port written as a decimal number: up to [2^31 - 1] it is
    accepted, whatever its size, and the endpoint's port is the number
    modulo 65536; beyond, initialisation fails with [std::out_of_range]. *)
Theorem decimal_port_is_reduced_to_16_bits (host : string) (d : Z) (ds : list Z) :
  mentions ":"%char host = false ->
  Forall is_digit (d :: ds) ->
  size (host ++ String ":"%char (digit_string (d :: ds)))%string < npos ->
  plugin_initialize_endpoint (host ++ String ":"%char (digit_string (d :: ds)))%string =
    if decimal (d :: ds) <=? 2 ^ 31 - 1
    then Parsed {| endpoint_address := host; endpoint_port := decimal (d :: ds) mod 2 ^ 16 |}
    else Fails out_of_range.
Proof.
  intros Hm Hds Hsize. unfold plugin_initialize_endpoint.
  destruct (split_at_colon host _ Hm Hsize) as [-> ->]. cbn [pbind].
  rewrite stoi_digit_string by assumption.
  now destruct (decimal (d :: ds) <=? 2 ^ 31 - 1).
Qed.

(** X17: a port that is empty, or that starts with a character that is
    neither white space, a sign nor a digit, makes initialisation fail
    with [std::invalid_argument]; an address in brackets with colons in
    it, split at its first colon, is such a case. *)
Theorem port_without_number_is_rejected (host rest : string) :
  mentions ":"%char host = false ->
  size (host ++ String ":"%char rest)%string < npos ->
  (rest = EmptyString \/
   exists c tail,
     rest = String c tail /\ isspace c = false /\ digit_of c = None /\
     c <> "-"%char /\ c <> "+"%char) ->
  plugin_initialize_endpoint (host ++ String ":"%char rest)%string = Fails invalid_argument.
Proof.
  intros Hm Hsize Hrest. unfold plugin_initialize_endpoint.
  destruct (split_at_colon host rest Hm Hsize) as [-> ->]. cbn [pbind].
  destruct Hrest as [-> | (c & tail & -> & Hsp & Hdig & Hminus & Hplus)]; [reflexivity|].
  unfold stoi. cbn [skip_space]. rewrite Hsp.
  assert (Hsign : match String c tail with
                  | String "-"%char s' => (true, s')
                  | String "+"%char s' => (false, s')
                  | _ => (false, String c tail)
                  end = (false, String c tail)).
  { destruct c as [[] [] [] [] [] [] [] []]; try reflexivity; congruence. }
  rewrite Hsign. cbn [snd digits]. rewrite Hdig. reflexivity.
Qed.

End ConfigFacts.

Lemma endpoint_splits_at_first_colon_witness :
  Config.plugin_initialize_endpoint "h:80:90"
  = Config.Parsed {| Config.endpoint_address := "h"; Config.endpoint_port := 80 |}.
Proof.
  apply (ConfigFacts.endpoint_splits_at_first_colon "h" "80:90").
  - reflexivity.
  - vm_compute. reflexivity.
Defined.

Lemma endpoint_without_colon_witness :
  Config.plugin_initialize_endpoint "8080"
  = Config.Parsed {| Config.endpoint_address := "8080"; Config.endpoint_port := 8080 |}.
Proof.
  apply (ConfigFacts.endpoint_without_colon "8080").
  - reflexivity.
  - vm_compute. reflexivity.
Defined.

Lemma decimal_port_is_reduced_to_16_bits_witness :
  Config.plugin_initialize_endpoint "localhost:70000"
  = Config.Parsed {| Config.endpoint_address := "localhost"; Config.endpoint_port := 4464 |}.
Proof.
  apply (ConfigFacts.decimal_port_is_reduced_to_16_bits "localhost" 7 [0; 0; 0; 0]).
  - reflexivity.
  - repeat constructor; unfold Config.is_digit; lia.
  - vm_compute. reflexivity.
Defined.

Lemma port_without_number_is_rejected_witness :
  Config.plugin_initialize_endpoint "[::1]:8080" = Config.Fails Config.invalid_argument.
Proof.
  apply (ConfigFacts.port_without_number_is_rejected "[" ":1]:8080").
  - reflexivity.
  - vm_compute. reflexivity.
  - right. exists ":"%char, "1]:8080"%string.
    repeat split; try reflexivity; discriminate.
Defined.

(** ** The acceptor, the registry and shutdown *)

Section ServerFacts.
Context {ser : Serialization}.
Import Server.

Lemma min_key_in (k0 : N) (rest : list (N * Session.session)) :
  let k := fold_right (fun kv acc => N.min (fst kv) acc) k0 rest in
  k = k0 \/ In k (map fst rest).
Proof.
  induction rest as [|kv rest IH]; cbn [fold_right map In]; [now left|].
  cbn zeta in IH.
  destruct (N.min_spec (fst kv) (fold_right (fun kv acc => N.min (fst kv) acc) k0 rest))
    as [[_ ->] | [_ ->]]; [right; now left|].
  destruct IH as [-> | Hin]; [now left | right; now right].
Qed.

Lemma begin_key_registered m addr :
  begin_key m = Some addr -> is_Some (m !! addr).
Proof.
  unfold begin_key. destruct (map_to_list m) as [|[k0 s0] rest] eqn:Hl; [discriminate|].
  intros [= <-]. cbn [fst].
  destruct (min_key_in k0 rest) as [-> | Hin].
  - exists s0. apply elem_of_map_to_list. rewrite Hl. now left.
  - apply in_map_iff in Hin as ([k s] & Hk & Hin). cbn [fst] in Hk.
    rewrite <- Hk. exists s. apply elem_of_map_to_list. rewrite Hl. right.
    now apply list_elem_of_In.
Qed.

Lemma begin_key_none m : begin_key m = None -> m = ∅.
Proof.
  unfold begin_key. destruct (map_to_list m) eqn:Hl; [|discriminate].
  intros _. now apply map_to_list_empty_iff.
Qed.

Lemma close_all_empties fuel : forall srv,
  (size (sessions srv) <= fuel)%nat ->
  sessions (close_all fuel srv) = ∅ /\
  stopping (close_all fuel srv) = stopping srv /\
  accepts_pending (close_all fuel srv) = accepts_pending srv.
Proof.
  induction fuel as [|fuel IH]; intros srv Hsize; cbn [close_all].
  - split; [|split; reflexivity]. apply map_size_empty_inv. lia.
  - destruct (begin_key (sessions srv)) as [addr|] eqn:Hb.
    + destruct (begin_key_registered _ _ Hb) as [s Hs].
      destruct (IH (close_session addr srv)) as (H1 & H2 & H3).
      * cbn [close_session set_sessions sessions].
        rewrite map_size_delete_Some by eauto.
        assert (size (sessions srv) <> 0%nat)
          by (intros H0; apply map_size_empty_inv in H0; rewrite H0, lookup_empty in Hs;
              discriminate).
        lia.
      * auto.
    + split; [|split; reflexivity]. now apply begin_key_none.
Qed.

Lemma step_when_stopping srv ev :
  stopping srv = true ->
  exists srv', step srv ev = Ok srv' /\
               sessions srv' = sessions srv /\ stopping srv' = true /\
               (accepts_pending srv' <= accepts_pending srv)%nat.
Proof.
  intros Hstop.
  assert (Hsame : forall o, o = Ok srv ->
            exists srv', o = Ok srv' /\
               sessions srv' = sessions srv /\ stopping srv' = true /\
               (accepts_pending srv' <= accepts_pending srv)%nat).
  { intros o ->. exists srv. split; [reflexivity|]. split; [reflexivity|].
    split; [assumption|]. lia. }
  destruct ev as [ec addr | addr ok | addr ev]; cbn [step].
  - destruct (accepts_pending srv) as [|n] eqn:Hp.
    + now apply Hsame.
    + eexists. split; [reflexivity|]. unfold on_accepted. cbn [stopping]. rewrite Hstop.
      cbn [sessions stopping accepts_pending].
      split; [reflexivity|]. split; [reflexivity|]. lia.
  - destruct (sessions srv !! addr); [|now apply Hsame].
    unfold on_handshake. rewrite Hstop. now apply Hsame.
  - destruct (sessions srv !! addr); [|now apply Hsame].
    unfold on_completion. rewrite Hstop. now apply Hsame.
Qed.

(** X18: [plugin_shutdown] closes every session: whatever the registry
    held, it is empty afterwards and [stopping] is set; and from then on no
    completion, of an accept, a handshake, a read or a write, registers a
    session or issues another accept. *)
Theorem plugin_shutdown_is_final (srv : server) (evs : list event) :
  sessions (plugin_shutdown srv) = ∅ /\
  stopping (plugin_shutdown srv) = true /\
  exists srv',
    run (plugin_shutdown srv) evs = Ok srv' /\
    sessions srv' = ∅ /\ stopping srv' = true /\
    (accepts_pending srv' <= accepts_pending srv)%nat.
Proof.
  destruct (close_all_empties (size (sessions srv)) srv (Nat.le_refl _)) as (He & _ & Hp).
  assert (Hgen : forall evs s0,
             stopping s0 = true ->
             exists s1, run s0 evs = Ok s1 /\ sessions s1 = sessions s0 /\
                        stopping s1 = true /\
                        (accepts_pending s1 <= accepts_pending s0)%nat).
  { clear. induction evs as [|ev evs' IH]; intros s0 Hstop.
    - exists s0. repeat split; [assumption | lia].
    - destruct (step_when_stopping s0 ev Hstop) as (s1 & Hstep & Hs & Hst & Hp).
      destruct (IH s1 Hst) as (s2 & Hrun & Hs2 & Hst2 & Hp2).
      exists s2. unfold run in *. cbn [ofold]. rewrite Hstep. cbn [obind].
      repeat split; [assumption | congruence | assumption | lia]. }
  split; [exact He|]. split; [reflexivity|].
  destruct (Hgen evs (plugin_shutdown srv) eq_refl) as (s1 & Hrun & Hs & Hst & Hle).
  exists s1. split; [exact Hrun|]. split; [now rewrite Hs|]. split; [exact Hst|].
  cbn [plugin_shutdown accepts_pending] in Hle. lia.
Qed.

Lemma step_pending srv ev srv' :
  step srv ev = Ok srv' ->
  (accepts_pending srv <= 1)%nat -> (accepts_pending srv' <= 1)%nat.
Proof.
  destruct ev as [ec addr | addr ok | addr ev]; cbn [step].
  - destruct (accepts_pending srv) as [|n] eqn:Hp; [intros [= <-]; lia|].
    intros [= <-] Hle. unfold on_accepted. cbn [stopping].
    destruct (stopping srv); [cbn; lia|].
    destruct ec as [[|]|]; cbn; lia.
  - destruct (sessions srv !! addr); [|intros [= <-]; lia].
    intros [= <-]. unfold on_handshake.
    destruct (stopping srv); [auto|]. destruct ok; auto.
  - destruct (sessions srv !! addr); [|intros [= <-]; lia].
    unfold on_completion. destruct (stopping srv); [intros [= <-]; auto|].
    destruct (Session.step s ev) as [s'| |]; [| intros [= <-]; auto | discriminate].
    destruct (Session.is_open s'); intros [= <-]; auto.
Qed.

(** X19: after [listen] the acceptor has one [async_accept] outstanding,
    and whatever completes afterwards it never has more than one. *)
Theorem at_most_one_accept_outstanding (open_ok bind_ok listen_ok : bool)
    (srv0 srv : server) (evs : list event) :
  listen open_ok bind_ok listen_ok stopped_acceptor = Ok srv0 ->
  run srv0 evs = Ok srv ->
  accepts_pending srv0 = 1%nat /\ (accepts_pending srv <= 1)%nat.
Proof.
  intros Hlisten Hrun.
  assert (H0 : accepts_pending srv0 = 1%nat).
  { unfold listen in Hlisten. destruct open_ok, bind_ok, listen_ok; try discriminate.
    now injection Hlisten as <-. }
  split; [exact H0|].
  assert (Hgen : forall evs s0 s1,
             (accepts_pending s0 <= 1)%nat -> run s0 evs = Ok s1 ->
             (accepts_pending s1 <= 1)%nat).
  { clear. induction evs as [|ev evs' IH]; intros s0 s1 Hle Hrun.
    - now injection Hrun as <-.
    - unfold run in Hrun. cbn [ofold] in Hrun.
      destruct (step s0 ev) as [s2| |] eqn:Hstep; cbn [obind] in Hrun; try discriminate.
      apply (IH s2 s1); [|exact Hrun]. now apply (step_pending s0 ev). }
  apply (Hgen evs srv0 srv); [lia | assumption].
Qed.

Lemma step_idle srv ev srv' :
  step srv ev = Ok srv' ->
  accepts_pending srv = 0%nat ->
  accepts_pending srv' = 0%nat /\
  forall addr, is_Some (sessions srv' !! addr) -> is_Some (sessions srv !! addr).
Proof.
  destruct ev as [ec addr | addr ok | addr ev]; cbn [step]; intros Hstep Hidle.
  - rewrite Hidle in Hstep. injection Hstep as <-. auto.
  - destruct (sessions srv !! addr) as [s|] eqn:Hs; [|injection Hstep as <-; auto].
    injection Hstep as <-. unfold on_handshake.
    destruct (stopping srv); [auto|]. destruct ok; cbn; (split; [assumption|]); intros a.
    + rewrite lookup_insert. destruct (decide (addr = a)) as [<- | _]; [rewrite Hs|]; eauto.
    + rewrite lookup_delete. destruct (decide (addr = a)); [intros [? ?]; discriminate | auto].
  - destruct (sessions srv !! addr) as [s|] eqn:Hs; [|injection Hstep as <-; auto].
    unfold on_completion in Hstep. destruct (stopping srv); [injection Hstep as <-; auto|].
    assert (Hdel : forall a, is_Some (delete addr (sessions srv) !! a) ->
                             is_Some (sessions srv !! a)).
    { intros a. rewrite lookup_delete.
      destruct (decide (addr = a)); [intros [? ?]; discriminate | auto]. }
    destruct (Session.step s ev) as [s'| |]; [| injection Hstep as <-; cbn; auto | discriminate].
    destruct (Session.is_open s'); injection Hstep as <-; cbn; [|auto].
    split; [assumption|]. intros a. rewrite lookup_insert.
    destruct (decide (addr = a)) as [<- | _]; [rewrite Hs|]; eauto.
Qed.

(** X20: an accept that fails with an error other than "too many open
    files" ends the accept loop for good: no [async_accept] is
    outstanding afterwards, whatever else completes, and no further
    session is ever registered. *)
Theorem other_accept_error_ends_accepting (srv srv' : server) (addr : N)
    (evs : list event) :
  (accepts_pending srv <= 1)%nat ->
  stopping srv = false ->
  run srv (accept_done (Some other_error) addr :: evs) = Ok srv' ->
  accepts_pending srv' = 0%nat /\
  forall a, is_Some (sessions srv' !! a) -> is_Some (sessions srv !! a).
Proof.
  intros Hle Hrunning Hrun.
  assert (Hgen : forall evs s0 s1,
             accepts_pending s0 = 0%nat -> run s0 evs = Ok s1 ->
             accepts_pending s1 = 0%nat /\
             forall a, is_Some (sessions s1 !! a) -> is_Some (sessions s0 !! a)).
  { clear. induction evs as [|ev evs' IH]; intros s0 s1 Hidle Hrun.
    - injection Hrun as <-. auto.
    - unfold run in Hrun. cbn [ofold] in Hrun.
      destruct (step s0 ev) as [s2| |] eqn:Hstep; cbn [obind] in Hrun; try discriminate.
      destruct (step_idle s0 ev s2 Hstep Hidle) as [Hidle2 Hdom2].
      destruct (IH s2 s1 Hidle2 Hrun) as [Hidle1 Hdom1]. auto. }
  unfold run in Hrun. cbn [ofold step] in Hrun.
  destruct (accepts_pending srv) as [|n] eqn:Hp; cbn [obind] in Hrun.
  - apply (Hgen evs srv srv'); assumption.
  - unfold on_accepted in Hrun. cbn [stopping] in Hrun. rewrite Hrunning in Hrun.
    apply Hgen in Hrun; [exact Hrun|]. cbn. lia.
Qed.

Lemma step_registry_open srv ev srv' :
  registry_open srv -> step srv ev = Ok srv' -> registry_open srv'.
Proof.
  intros Hopen. destruct ev as [ec addr | addr ok | addr ev]; cbn [step].
  - destruct (accepts_pending srv); intros [= <-]; [assumption|].
    unfold on_accepted. cbn [stopping]. destruct (stopping srv); [exact Hopen|].
    destruct ec as [[|]|]; try exact Hopen.
    intros a s. cbn. rewrite lookup_insert.
    destruct (decide (addr = a)); [now intros [= <-] | apply Hopen].
  - destruct (sessions srv !! addr) as [s0|] eqn:Hs; intros [= <-]; [|assumption].
    unfold on_handshake. destruct (stopping srv); [assumption|].
    destruct ok; intros a s; cbn.
    + rewrite lookup_insert. destruct (decide (addr = a)); [|apply Hopen].
      intros [= <-]. unfold Session.on_accept. rewrite send_frame_open.
      now apply (Hopen addr).
    + rewrite lookup_delete. destruct (decide (addr = a)); [discriminate | apply Hopen].
  - destruct (sessions srv !! addr) as [s0|] eqn:Hs; [|now intros [= <-]].
    unfold on_completion. destruct (stopping srv); [now intros [= <-]|].
    assert (Hdel : registry_open (close_session addr srv)).
    { intros a s. cbn. rewrite lookup_delete.
      destruct (decide (addr = a)); [discriminate | apply Hopen]. }
    destruct (Session.step s0 ev) as [s'| |]; [| now intros [= <-] | discriminate].
    destruct (Session.is_open s') eqn:Ho; intros [= <-]; [|assumption].
    intros a s. cbn. rewrite lookup_insert.
    destruct (decide (addr = a)); [now intros [= <-] | apply Hopen].
Qed.

(** X21: the registry holds open sessions only: from [listen] on,
    whatever completes, a session whose stream was closed, by a failed
    read, write or handshake, is no longer registered. *)
Theorem registry_holds_open_sessions (open_ok bind_ok listen_ok : bool)
    (srv0 srv : server) (evs : list event) (addr : N) (s : Session.session) :
  listen open_ok bind_ok listen_ok stopped_acceptor = Ok srv0 ->
  run srv0 evs = Ok srv ->
  sessions srv !! addr = Some s ->
  Session.is_open s = true.
Proof.
  intros Hlisten Hrun.
  assert (H0 : registry_open srv0).
  { unfold listen in Hlisten. destruct open_ok, bind_ok, listen_ok; try discriminate.
    injection Hlisten as <-. intros a s0. cbn. now rewrite lookup_empty. }
  assert (Hgen : forall evs s0 s1,
             registry_open s0 -> run s0 evs = Ok s1 -> registry_open s1).
  { clear. induction evs as [|ev evs' IH]; intros s0 s1 Hopen Hrun.
    - now injection Hrun as <-.
    - unfold run in Hrun. cbn [ofold] in Hrun.
      destruct (step s0 ev) as [s2| |] eqn:Hstep; cbn [obind] in Hrun; try discriminate.
      apply (IH s2 s1); [|exact Hrun]. now apply (step_registry_open s0 ev). }
  apply (Hgen evs srv0 srv H0 Hrun).
Qed.

End ServerFacts.

Lemma at_most_one_accept_outstanding_witness :
  exists srv,
    @Server.run Demo.ser (Server.do_accept Server.stopped_acceptor)
      [ Server.accept_done None 1%N;
        Server.accept_done (Some Server.too_many_files_open) 2%N;
        Server.handshake_done 1%N true ] = Ok srv /\
    (Server.accepts_pending srv <= 1)%nat.
Proof.
  eexists. split.
  - reflexivity.
  - apply (@at_most_one_accept_outstanding Demo.ser true true true
             (Server.do_accept Server.stopped_acceptor) _
             [ Server.accept_done None 1%N;
               Server.accept_done (Some Server.too_many_files_open) 2%N;
               Server.handshake_done 1%N true ]).
    + reflexivity.
    + reflexivity.
Defined.

Lemma other_accept_error_ends_accepting_witness :
  exists srv,
    @Server.run Demo.ser (Server.do_accept Server.stopped_acceptor)
      [ Server.accept_done (Some Server.other_error) 1%N; Server.accept_done None 2%N ]
    = Ok srv /\
    Server.accepts_pending srv = 0%nat.
Proof.
  eexists. split.
  - reflexivity.
  - apply (@other_accept_error_ends_accepting Demo.ser
             (Server.do_accept Server.stopped_acceptor) _ 1%N
             [ Server.accept_done None 2%N ]).
    + cbn. lia.
    + reflexivity.
    + reflexivity.
Defined.

Lemma registry_holds_open_sessions_witness :
  Session.is_open (@Session.on_accept Demo.ser Session.new_session) = true.
Proof.
  apply (@registry_holds_open_sessions Demo.ser true true true
           (Server.do_accept Server.stopped_acceptor)
           {| Server.stopping := false;
              Server.sessions := {[ 1%N := @Session.on_accept Demo.ser Session.new_session ]};
              Server.accepts_pending := 1 |}
           [ Server.accept_done None 1%N; Server.handshake_done 1%N true ] 1%N).
  - reflexivity.
  - vm_compute. reflexivity.
  - vm_compute. reflexivity.
Defined.

(** ** What a status request and a first snapshot report *)

Section Reports.
Context {ser : Serialization}.
Import Plugin.

(** X22: after a block that extends the logs was accepted, a status
    request reports the block's number plus one as [state_end_block_num];
    when the chain-state log already had entries, [state_begin_block_num]
    is what it was before the block. *)
Theorem status_reports_accepted_block (chain chain' : controller) (bs : block_state)
    (my my' : state_history_plugin_impl) (u : unit) :
  aligned my ->
  extends (trace_log my) bs ->
  on_accepted_block chain bs my = Returns u my' ->
  state_end_block_num (handle_get_status chain' my') = sb_block_num (block bs) + 1 /\
  (entries (chain_state_log my) <> [] ->
   state_begin_block_num (handle_get_status chain' my')
   = state_begin_block_num (handle_get_status chain' my)).
Proof.
  intros Hal Hext Hrun. rewrite on_accepted_block_unfold in Hrun.
  destruct (store_traces bs my) as [[] my1 | |] eqn:Ht; try discriminate.
  apply store_traces_returns in Ht as (h1 & p1 & log1 & Hn1 & Hi1 & Hw1 & ->).
  apply store_chain_state_returns in Hrun as (h2 & p2 & log2 & Hn2 & Hi2 & Hw2 & ->).
  cbn [chain_state_log set_trace_log set_traces] in Hw2.
  unfold handle_get_status.
  cbn [state_end_block_num state_begin_block_num chain_state_log set_chain_state_log].
  destruct (write_entry_extends (chain_state_log my) bs h2 p2 log2) as [Hend Hbegin];
    [now apply (extends_aligned (trace_log my)) | assumption | assumption |].
  split; [exact Hend|]. intros Hne. now apply Hbegin.
Qed.

Lemma map_flat_map {A B C : Type} (f : B -> C) (g : A -> list B) (l : list A) :
  map f (flat_map g l) = flat_map (fun x => map f (g x)) l.
Proof.
  induction l as [|x l IH]; cbn [flat_map map]; [reflexivity|].
  now rewrite map_app, IH.
Qed.

(** X23: a snapshot on an empty chain-state log, whose contract rows all
    resolve their table id: there is one delta for each table that has
    rows, in the order of the tables, and the data of its rows are the
    serialised rows of the table, every one of them, in index order. *)
Theorem fresh_snapshot_covers_every_row (chain : controller) (top : undo_state)
    (tid : Z -> chain_row) :
  last (stack (db chain contract_table)) = Some top ->
  (forall pass row,
     In pass table_passes -> snd pass = contract_scoped ->
     In row (indices (db chain (fst pass))) ->
     get_table_id (db chain contract_table) (collect_removed_table_id (removed_values top))
       (t_id row) = Ok (tid (t_id row))) ->
  exists deltas,
    chain_state_deltas chain true = Ok deltas /\
    map (fun d => (name d, map snd (rows d))) deltas =
      flat_map (fun pass =>
                  match indices (db chain (fst pass)) with
                  | [] => []
                  | _ :: _ =>
                      [ (table_tag (fst pass),
                         map (row_data tid pass) (indices (db chain (fst pass)))) ]
                  end) table_passes.
Proof.
  intros Htop Htid. eexists. split; [now apply (deltas_of_fresh_log chain top tid)|].
  rewrite map_flat_map. apply flat_map_ext. intros pass.
  unfold fresh_delta. destruct (indices (db chain (fst pass))) as [|row rws]; [reflexivity|].
  cbn [map name rows]. now rewrite map_map.
Qed.

End Reports.

Lemma status_reports_accepted_block_witness :
  state_end_block_num (@Plugin.handle_get_status Demo.genesis_chain Demo.plugin_after_100)
  = 101.
Proof.
  apply (@status_reports_accepted_block Demo.ser Demo.genesis_chain Demo.genesis_chain
           Demo.block_100 Demo.plugin_before_100 Demo.plugin_after_100 tt).
  - reflexivity.
  - left. reflexivity.
  - reflexivity.
Defined.

Lemma fresh_snapshot_covers_every_row_witness :
  exists deltas,
    @Plugin.chain_state_deltas Demo.ser Demo.genesis_chain true = Ok deltas /\
    map (fun d => (name d, map snd (rows d))) deltas = [ ("account"%string, [[x61]]) ].
Proof.
  apply (@fresh_snapshot_covers_every_row Demo.ser Demo.genesis_chain Demo.idle_frame
           (fun _ => Demo.alice)).
  - reflexivity.
  - intros pass row Hpass Hk Hrow. cbn in Hpass.
    repeat (destruct Hpass as [<- | Hpass]; [try discriminate Hk; try destruct Hrow |]).
    destruct Hpass.
Defined.
